(** * Shallow embedding of parts of BadVPN: the pending-job queue (BPending),
    the static-priority packet multiplexer (PacketPassPriorityQueue) and the
    shapes of the DataProto objects. *)

From Stdlib Require Import List Bool Arith ZArith Lia String.
Import ListNotations.
Open Scope Z_scope.

(* ------------------------------------------------------------------------ *)
(** ** BPending: LIFO queue of deferred jobs (src/base/BPending.h) *)

Module BPending.

(** A job is identified by the address of its [BPending] object. *)
Definition job := nat.

(** The group's [LinkedList1 jobs]: the head of the list is the top job. *)
Definition jobs := list job.

(** [LinkedList1_Remove] of a job's node: the job leaves the list. *)
Fixpoint remove_job (h : job) (q : jobs) : jobs :=
  match q with
  | [] => []
  | x :: t => if Nat.eqb x h then remove_job h t else x :: remove_job h t
  end.

(** Modelled from the spec: BPending.c is not in the repository's files.
    [BPending_Set]: "Enables the job, pushing it to the top of the job list.
    If the object was already in set state, the job is removed from its
    current position in the list before being pushed." *)
Definition BPending_Set (h : job) (q : jobs) : jobs :=
  h :: remove_job h q.

(** Modelled from the spec: [BPending_Unset]: "Disables the job, removing it
    from the job list. If the object was not in set state, nothing is done." *)
Definition BPending_Unset (h : job) (q : jobs) : jobs :=
  remove_job h q.

(** [BPending_IsSet]: the job is in set state iff it is on the list. *)
Definition BPending_IsSet (h : job) (q : jobs) : bool :=
  existsb (Nat.eqb h) q.

(** What a job handler does to the queue while it runs. *)
Inductive action := ASet (h : job) | AUnset (h : job).

Definition apply_action (q : jobs) (a : action) : jobs :=
  match a with
  | ASet h => BPending_Set h q
  | AUnset h => BPending_Unset h q
  end.

Definition apply_actions (q : jobs) (l : list action) : jobs :=
  fold_left apply_action l q.

(** Modelled from the spec: [BPendingGroup_ExecuteJob] "Executes the top job
    on the job list. The job is removed from the list and enters not set state
    before being executed."  A handler is user code: it sees its own state
    [St] (anything it keeps between runs, such as a counter) and the job list
    it can query with [BPending_IsSet], and makes a sequence of [Set]/[Unset]
    calls; so what it does may change from one run to the next. [drain] runs
    the top job until the list is empty (or the fuel runs out) and returns the
    log of executions, each job with the calls its handler made, in order, and
    what is left on the list. *)
Fixpoint drain {St : Type} (handler : St -> jobs -> job -> St * list action)
    (fuel : nat) (s : St) (q : jobs) : list (job * list action) * jobs :=
  match fuel with
  | O => ([], q)
  | S fuel' =>
      match q with
      | [] => ([], [])
      | h :: t =>
          let '(s', acts) := handler s t h in
          let '(log, rest) := drain handler fuel' s' (apply_actions t acts) in
          ((h, acts) :: log, rest)
      end
  end.

(** The jobs executed, in order. *)
Definition trace (log : list (job * list action)) : list job := map fst log.

(** The [Set]/[Unset] calls made by the handlers that ran before the first
    execution of [b] (all of them when [b] never runs). *)
Fixpoint calls_before (b : job) (log : list (job * list action)) : list action :=
  match log with
  | [] => []
  | (x, acts) :: t => if Nat.eqb x b then [] else acts ++ calls_before b t
  end.

(** [first_before b a l]: [b] occurs in [l] and no [a] occurs before it. On an
    execution trace: [b]'s handler runs before [a]'s. *)
Fixpoint first_before (b a : job) (l : list job) : bool :=
  match l with
  | [] => false
  | x :: t =>
      if Nat.eqb x b then true else if Nat.eqb x a then false
      else first_before b a t
  end.

End BPending.

(* ------------------------------------------------------------------------ *)
(** ** PacketPassPriorityQueue (src/flow/PacketPassPriorityQueue.c) *)

Module PQ.

(** A flow is identified by the address of its
    [PacketPassPriorityQueueFlow] object. *)
Definition flow_id := nat.

(** Calls the queue makes on its [output] interface. A packet buffer pointer is
    kept as an opaque address. *)
Inductive out_event :=
  | OSend (f : flow_id) (data : Z) (data_len : Z)  (* PacketPassInterface_Sender_Send *)
  | OCancel.                                       (* PacketPassInterface_Sender_Cancel *)

(** [PacketPassPriorityQueueFlow]. [fl_alive] is the [d_obj] debug object
    (live between [Flow_Init] and [Flow_Free]); [fl_input_busy] is the state of
    [flow->input]: a packet was passed to the flow and [Done] was not called. *)
Record flow := mkFlow {
  fl_alive : bool;
  fl_priority : Z;
  fl_is_queued : bool;
  fl_data : Z;
  fl_data_len : Z;
  fl_handler_busy : bool;
  fl_input_busy : bool
}.

Definition dead_flow : flow := mkFlow false 0 false 0 0 false false.

(** [PacketPassPriorityQueue]. [schedule_job] is whether the BPending
    [m->schedule_job] is in set state; [output] lists the calls made on
    [m->output], most recent first. *)
Record queue := mkQueue {
  sending_flow : option flow_id;
  sending_len : Z;
  queued_heap : list flow_id;
  freeing : bool;
  use_cancel : bool;
  schedule_job : bool;
  flows : flow_id -> flow;
  output : list out_event
}.

Definition upd (fs : flow_id -> flow) (f : flow_id) (fl : flow) : flow_id -> flow :=
  fun g => if Nat.eqb g f then fl else fs g.

Definition set_flows m fs :=
  mkQueue (sending_flow m) (sending_len m) (queued_heap m) (freeing m)
    (use_cancel m) (schedule_job m) fs (output m).
Definition set_flow m f fl := set_flows m (upd (flows m) f fl).
Definition set_sending m s :=
  mkQueue s (sending_len m) (queued_heap m) (freeing m)
    (use_cancel m) (schedule_job m) (flows m) (output m).
Definition set_sending_len m l :=
  mkQueue (sending_flow m) l (queued_heap m) (freeing m)
    (use_cancel m) (schedule_job m) (flows m) (output m).
Definition set_heap m h :=
  mkQueue (sending_flow m) (sending_len m) h (freeing m)
    (use_cancel m) (schedule_job m) (flows m) (output m).
Definition set_freeing m b :=
  mkQueue (sending_flow m) (sending_len m) (queued_heap m) b
    (use_cancel m) (schedule_job m) (flows m) (output m).
Definition set_use_cancel m b :=
  mkQueue (sending_flow m) (sending_len m) (queued_heap m) (freeing m)
    b (schedule_job m) (flows m) (output m).
Definition set_schedule_job m b :=
  mkQueue (sending_flow m) (sending_len m) (queued_heap m) (freeing m)
    (use_cancel m) b (flows m) (output m).
Definition emit m e :=
  mkQueue (sending_flow m) (sending_len m) (queued_heap m) (freeing m)
    (use_cancel m) (schedule_job m) (flows m) (e :: output m).

Definition flow_set_queued fl b :=
  mkFlow (fl_alive fl) (fl_priority fl) b (fl_data fl) (fl_data_len fl)
    (fl_handler_busy fl) (fl_input_busy fl).
Definition flow_set_packet fl d l :=
  mkFlow (fl_alive fl) (fl_priority fl) (fl_is_queued fl) d l
    (fl_handler_busy fl) (fl_input_busy fl).
Definition flow_set_handler_busy fl b :=
  mkFlow (fl_alive fl) (fl_priority fl) (fl_is_queued fl) (fl_data fl)
    (fl_data_len fl) b (fl_input_busy fl).
Definition flow_set_input_busy fl b :=
  mkFlow (fl_alive fl) (fl_priority fl) (fl_is_queued fl) (fl_data fl)
    (fl_data_len fl) (fl_handler_busy fl) b.
Definition flow_set_alive fl b :=
  mkFlow b (fl_priority fl) (fl_is_queued fl) (fl_data fl)
    (fl_data_len fl) (fl_handler_busy fl) (fl_input_busy fl).

(** A failed [ASSERT] stops the program: [None]. *)
Notation "'ASSERT' b ;; k" := (if b then k else None)
  (at level 200, b at level 100, right associativity).

Definition has_flow (s : option flow_id) : bool :=
  match s with Some _ => true | None => false end.

Definition is_sending (m : queue) (f : flow_id) : bool :=
  match sending_flow m with Some g => Nat.eqb g f | None => false end.

(** [int_comparator] *)
Definition int_comparator (prio1 prio2 : Z) : Z :=
  if prio1 <? prio2 then -1
  else if prio1 >? prio2 then 1
  else 0.

(** Modelled from the spec: BHeap (structure/BHeap.h) is not in the
    repository's files. The heap holds the queued flows, keyed by
    [flow->priority] through [int_comparator]; [BHeap_GetFirst] gives a node
    the comparator ranks least (smaller priority value is scheduled first),
    here the earliest inserted one among equals. *)
Fixpoint heap_first_from (fs : flow_id -> flow) (best : flow_id) (l : list flow_id)
  : flow_id :=
  match l with
  | [] => best
  | x :: t =>
      if int_comparator (fl_priority (fs x)) (fl_priority (fs best)) <? 0
      then heap_first_from fs x t else heap_first_from fs best t
  end.

Definition BHeap_GetFirst (m : queue) : option flow_id :=
  match queued_heap m with
  | [] => None
  | x :: t => Some (heap_first_from (flows m) x t)
  end.

Definition BHeap_Insert (h : list flow_id) (f : flow_id) : list flow_id := h ++ [f].

Fixpoint BHeap_Remove (h : list flow_id) (f : flow_id) : list flow_id :=
  match h with
  | [] => []
  | x :: t => if Nat.eqb x f then t else x :: BHeap_Remove t f
  end.

(** [schedule] *)
Definition schedule (m : queue) : option queue :=
  ASSERT (negb (freeing m)) ;;
  ASSERT (negb (has_flow (sending_flow m))) ;;
  match BHeap_GetFirst m with
  | None => None
  | Some q =>
      let qflow := flows m q in
      ASSERT (fl_is_queued qflow) ;;
      (* remove flow from queue *)
      let m1 := set_heap m (BHeap_Remove (queued_heap m) q) in
      let m2 := set_flow m1 q (flow_set_queued qflow false) in
      (* schedule send *)
      let m3 := emit m2 (OSend q (fl_data qflow) (fl_data_len qflow)) in
      Some (set_sending_len (set_sending m3 (Some q)) (fl_data_len qflow))
  end.

(** [schedule_job_handler] *)
Definition schedule_job_handler (m : queue) : option queue :=
  ASSERT (negb (freeing m)) ;;
  ASSERT (negb (has_flow (sending_flow m))) ;;
  match BHeap_GetFirst m with
  | Some _ => schedule m
  | None => Some m
  end.

(** [input_handler_send] *)
Definition input_handler_send (m : queue) (f : flow_id) (data data_len : Z)
  : option queue :=
  ASSERT (negb (freeing m)) ;;
  ASSERT (negb (is_sending m f)) ;;
  ASSERT (negb (fl_is_queued (flows m f))) ;;
  ASSERT (fl_alive (flows m f)) ;;
  (* queue flow *)
  let m1 := set_flow m f (flow_set_packet (flows m f) data data_len) in
  let m2 := set_heap m1 (BHeap_Insert (queued_heap m1) f) in
  let m3 := set_flow m2 f (flow_set_queued (flows m2 f) true) in
  if negb (has_flow (sending_flow m3)) && negb (schedule_job m3)
  then schedule m3 else Some m3.

(** [output_handler_done]. The busy handler is user code: it is unset here and
    whatever it does is a later step. *)
Definition output_handler_done (m : queue) : option queue :=
  ASSERT (negb (freeing m)) ;;
  match sending_flow m with
  | None => None
  | Some f =>
      ASSERT (negb (fl_is_queued (flows m f))) ;;
      ASSERT (negb (schedule_job m)) ;;
      (* sending finished *)
      let m1 := set_sending m None in
      (* schedule schedule *)
      let m2 := set_schedule_job m1 true in
      (* finish flow packet: PacketPassInterface_Done(&flow->input) *)
      let m3 := set_flow m2 f (flow_set_input_busy (flows m2 f) false) in
      (* one-shot busy handler *)
      if fl_handler_busy (flows m3 f)
      then Some (set_flow m3 f (flow_set_handler_busy (flows m3 f) false))
      else Some m3
  end.

(** [PacketPassPriorityQueue_Init] *)
Definition PacketPassPriorityQueue_Init : queue :=
  mkQueue None 0 [] false false false (fun _ => dead_flow) [].

(** [PacketPassPriorityQueue_EnableCancel] *)
Definition EnableCancel (m : queue) : option queue :=
  ASSERT (negb (use_cancel m)) ;; Some (set_use_cancel m true).

(** [PacketPassPriorityQueue_PrepareFree] *)
Definition PrepareFree (m : queue) : option queue := Some (set_freeing m true).

(** [PacketPassPriorityQueueFlow_Init]: a flow object is initialised only when
    it is not live. *)
Definition Flow_Init (m : queue) (f : flow_id) (priority : Z) : option queue :=
  ASSERT (negb (freeing m)) ;;
  ASSERT (negb (fl_alive (flows m f))) ;;
  Some (set_flow m f (mkFlow true priority false (fl_data (flows m f))
                        (fl_data_len (flows m f)) false false)).

(** [PacketPassPriorityQueueFlow_Free] *)
Definition Flow_Free (m : queue) (f : flow_id) : option queue :=
  ASSERT (freeing m || negb (is_sending m f)) ;;
  ASSERT (fl_alive (flows m f)) ;;
  let m1 := set_flow m f (flow_set_alive (flows m f) false) in
  (* remove from current flow *)
  let m2 := if is_sending m1 f then set_sending m1 None else m1 in
  (* remove from queue *)
  if fl_is_queued (flows m2 f)
  then Some (set_heap m2 (BHeap_Remove (queued_heap m2) f))
  else Some m2.

(** [PacketPassPriorityQueueFlow_Release] *)
Definition Flow_Release (m : queue) (f : flow_id) : option queue :=
  ASSERT (use_cancel m) ;;
  ASSERT (is_sending m f) ;;
  ASSERT (negb (freeing m)) ;;
  ASSERT (negb (schedule_job m)) ;;
  ASSERT (fl_alive (flows m f)) ;;
  (* cancel current packet *)
  let m1 := emit m OCancel in
  (* set no sending flow *)
  let m2 := set_sending m1 None in
  (* schedule schedule *)
  Some (set_schedule_job m2 true).

(** [PacketPassPriorityQueueFlow_SetBusyHandler] *)
Definition Flow_SetBusyHandler (m : queue) (f : flow_id) : option queue :=
  ASSERT (is_sending m f) ;;
  ASSERT (negb (freeing m)) ;;
  ASSERT (fl_alive (flows m f)) ;;
  Some (set_flow m f (flow_set_handler_busy (flows m f) true)).

(** [PacketPassPriorityQueueFlow_IsBusy] *)
Definition Flow_IsBusy (m : queue) (f : flow_id) : option bool :=
  ASSERT (negb (freeing m)) ;;
  ASSERT (fl_alive (flows m f)) ;;
  Some (is_sending m f).

(** [PacketPassPriorityQueueFlow_AssertFree] *)
Definition Flow_AssertFree (m : queue) (f : flow_id) : option unit :=
  ASSERT (freeing m || negb (is_sending m f)) ;;
  ASSERT (fl_alive (flows m f)) ;;
  Some tt.

(** [PacketPassPriorityQueue_Free]: its two [ASSERT]s (the debug counter of
    live flows is not kept by the model). *)
Definition PacketPassPriorityQueue_Free (m : queue) : option unit :=
  ASSERT (match queued_heap m with [] => true | _ :: _ => false end) ;;
  ASSERT (negb (has_flow (sending_flow m))) ;;
  Some tt.

(** Events the queue reacts to. [InputSend] is a producer's
    [PacketPassInterface_Sender_Send] on [flow->input]: the interface enters
    its busy state and calls [input_handler_send]. [OutputDone] is the
    downstream's done call; [RunScheduleJob] is the BPending group executing
    [schedule_job], which leaves set state before its handler runs. *)
Inductive op :=
  | FlowInit (f : flow_id) (priority : Z)
  | InputSend (f : flow_id) (data data_len : Z)
  | OutputDone
  | RunScheduleJob
  | FlowFree (f : flow_id)
  | FlowRelease (f : flow_id)
  | FlowSetBusyHandler (f : flow_id)
  | OpEnableCancel
  | OpPrepareFree.

Definition step (m : queue) (o : op) : option queue :=
  match o with
  | FlowInit f p => Flow_Init m f p
  | InputSend f d l =>
      input_handler_send (set_flow m f (flow_set_input_busy (flows m f) true)) f d l
  | OutputDone => output_handler_done m
  | RunScheduleJob =>
      ASSERT (schedule_job m) ;;
      schedule_job_handler (set_schedule_job m false)
  | FlowFree f => Flow_Free m f
  | FlowRelease f => Flow_Release m f
  | FlowSetBusyHandler f => Flow_SetBusyHandler m f
  | OpEnableCancel => EnableCancel m
  | OpPrepareFree => PrepareFree m
  end.

Inductive reachable : queue -> Prop :=
  | reach_init : reachable PacketPassPriorityQueue_Init
  | reach_step m o m' : reachable m -> step m o = Some m' -> reachable m'.

(** A sequence of events, stopping at a failed assertion. *)
Fixpoint run (m : queue) (os : list op) : option queue :=
  match os with
  | [] => Some m
  | o :: t => match step m o with Some m' => run m' t | None => None end
  end.

(** Packets of flow [f] held by the queue: queued in the heap or in flight on
    the output. *)
Definition in_flight (m : queue) (f : flow_id) : nat :=
  count_occ Nat.eq_dec (queued_heap m) f + (if is_sending m f then 1 else 0).

(** A concrete scenario: cancel enabled, flows 1, 2, 3 with priorities 5, 3, 7
    each submit a packet; flow 1 goes out at once, flows 2 and 3 stay queued
    ([ex_q0]); the output reports done ([ex_q1]); the schedule job runs
    ([ex_q2]). *)
Definition ex_ops : list op :=
  [OpEnableCancel; FlowInit 1%nat 5; FlowInit 2%nat 3; FlowInit 3%nat 7;
   InputSend 1%nat 100 10; InputSend 2%nat 200 20; InputSend 3%nat 300 30].

Definition get (r : option queue) (dflt : queue) : queue :=
  match r with Some m => m | None => dflt end.

Definition ex_q0 : queue := get (run PacketPassPriorityQueue_Init ex_ops) PacketPassPriorityQueue_Init.
Definition ex_q1 : queue := get (step ex_q0 OutputDone) ex_q0.
Definition ex_q2 : queue := get (step ex_q1 RunScheduleJob) ex_q1.
Definition ex_qf : queue := get (step ex_q0 OpPrepareFree) ex_q0.
Definition ex_qt : queue :=
  get (run ex_qf (map FlowFree [1%nat; 2%nat; 3%nat])) ex_qf.
Definition ex_qf1 : queue := get (step ex_qf (FlowFree 1%nat)) ex_qf.
Definition ex_q1f : queue := get (step ex_q1 OpPrepareFree) ex_q1.
Definition ex_qi : queue :=
  get (step PacketPassPriorityQueue_Init (FlowInit 4%nat 1)) PacketPassPriorityQueue_Init.
Definition ex_q3 : queue :=
  get (run ex_q0 [OutputDone; RunScheduleJob; OutputDone; RunScheduleJob;
                  OutputDone; RunScheduleJob]) ex_q0.

(** Invariant of a live queue: the heap holds exactly the live queued flows,
    once each; the sending flow is live and not queued; a flow with a packet
    queued or in flight has its input busy. *)
Record inv (m : queue) : Prop := {
  inv_nodup : NoDup (queued_heap m);
  inv_heap : forall f, In f (queued_heap m) ->
    fl_alive (flows m f) = true /\ fl_is_queued (flows m f) = true;
  inv_queued : forall f, fl_alive (flows m f) = true ->
    fl_is_queued (flows m f) = true -> In f (queued_heap m);
  inv_sending : forall f, sending_flow m = Some f ->
    fl_alive (flows m f) = true /\ fl_is_queued (flows m f) = false /\
    fl_input_busy (flows m f) = true;
  inv_busy : forall f, fl_alive (flows m f) = true ->
    fl_is_queued (flows m f) = true -> fl_input_busy (flows m f) = true
}.

(** How the schedule job, the sending flow and the output fit together: while
    the job is set no flow is sending; an idle, live queue with the job unset
    has nothing queued; the packet in flight is the sending flow's packet, the
    last one handed to the output, and [sending_len] is its length. *)
Record inv2 (m : queue) : Prop := {
  inv2_job : schedule_job m = true -> sending_flow m = None;
  inv2_idle : freeing m = false -> sending_flow m = None ->
    schedule_job m = false -> queued_heap m = @nil flow_id;
  inv2_out : forall f, sending_flow m = Some f ->
    exists rest, output m =
      OSend f (fl_data (flows m f)) (fl_data_len (flows m f)) :: rest;
  inv2_len : forall f, sending_flow m = Some f ->
    sending_len m = fl_data_len (flows m f)
}.

End PQ.

(* ------------------------------------------------------------------------ *)
(** ** DataProto object shapes (src/client/DataProto.h) *)

Module DataProto.

(** [peerid_t] is a 16-bit peer id. *)
Definition peerid_t := Z.

(** The members of [DataProtoDest], in declaration order (the [#ifndef NDEBUG]
    members last). *)
Definition DataProtoDest_fields : list string :=
  ["reactor"; "dest_id"; "mtu"; "frame_mtu"; "queue"; "monitor"; "notifier";
   "ka_source"; "ka_blocker"; "ka_buffer"; "ka_qflow"; "receive_timer"; "up";
   "handler"; "user"; "relay_flows_list"; "keepalive_job"; "flows_counter";
   "d_obj"; "d_output"; "d_freeing"]%string.

(** The members of [DataProtoLocalSource], in declaration order. *)
Definition DataProtoLocalSource_fields : list string :=
  ["frame_mtu"; "source_id"; "dest_id"; "ainput"; "buffer"; "connector"; "dp";
   "dp_qflow"; "d_obj"; "d_dp_released"]%string.

Definition has_field (fields : list string) (name : string) : bool :=
  existsb (String.eqb name) fields.

(** The peer-id members of the two structs. *)
Record DataProtoDest_ids := mkDestIds { dest_dest_id : peerid_t }.
Record DataProtoLocalSource_ids := mkLocalIds {
  ls_source_id : peerid_t;
  ls_dest_id : peerid_t
}.

(** The claim that the destination does not carry [dest_id] while each local
    source does. *)
Definition dest_without_dest_id : Prop :=
  has_field DataProtoDest_fields "dest_id" = false /\
  has_field DataProtoLocalSource_fields "dest_id" = true.

End DataProto.

(* ======================================================================== *)
(** * Properties *)

Module BPendingFacts.
Import BPending.
Local Open Scope nat_scope.

Lemma remove_job_notin (h : job) (q : jobs) :
  ~ In h q -> remove_job h q = q.
Proof.
  induction q as [|x t IH]; simpl; intros Hn; [reflexivity|].
  destruct (Nat.eqb_spec x h) as [->|Hx]; [exfalso; tauto|].
  rewrite IH; tauto.
Qed.

Lemma remove_job_not_in (h : job) (q : jobs) : ~ In h (remove_job h q).
Proof.
  induction q as [|x t IH]; simpl; [tauto|].
  destruct (Nat.eqb_spec x h); simpl; [exact IH|].
  intros [E|E]; [congruence|tauto].
Qed.

Lemma remove_job_idem (h : job) (q : jobs) :
  remove_job h (remove_job h q) = remove_job h q.
Proof. apply remove_job_notin, remove_job_not_in. Qed.

Lemma IsSet_false_notin (h : job) (q : jobs) :
  BPending_IsSet h q = false -> ~ In h q.
Proof.
  unfold BPending_IsSet; intros H Hin.
  assert (existsb (Nat.eqb h) q = true) as E.
  { apply existsb_exists; exists h; split; [exact Hin|apply Nat.eqb_refl]. }
  congruence.
Qed.

Lemma first_before_remove (b a x : job) (q : jobs) :
  x <> b -> first_before b a q = true -> first_before b a (remove_job x q) = true.
Proof.
  intros Hxb; induction q as [|y t IH]; simpl; [discriminate|].
  destruct (Nat.eqb_spec y b) as [->|Hyb].
  - intros _. destruct (Nat.eqb_spec b x); [congruence|].
    simpl; rewrite Nat.eqb_refl; reflexivity.
  - destruct (Nat.eqb_spec y a); [discriminate|].
    intros Ht. destruct (Nat.eqb_spec y x); [auto|].
    simpl. destruct (Nat.eqb_spec y b); [congruence|].
    destruct (Nat.eqb_spec y a); [congruence|auto].
Qed.

Lemma first_before_Set_top (b a : job) (q : jobs) :
  first_before b a (BPending_Set b q) = true.
Proof. simpl; rewrite Nat.eqb_refl; reflexivity. Qed.

Lemma first_before_Set (b a x : job) (q : jobs) :
  x <> a -> first_before b a q = true -> first_before b a (BPending_Set x q) = true.
Proof.
  intros Hxa Hq. destruct (Nat.eq_dec x b) as [->|Hxb].
  - apply first_before_Set_top.
  - unfold BPending_Set; simpl.
    destruct (Nat.eqb_spec x b); [congruence|].
    destruct (Nat.eqb_spec x a); [congruence|].
    apply first_before_remove; assumption.
Qed.

Lemma first_before_actions (b a : job) (l : list action) (q : jobs) :
  ~ In (ASet a) l -> ~ In (AUnset b) l ->
  first_before b a q = true -> first_before b a (apply_actions q l) = true.
Proof.
  revert q; induction l as [|c l IH]; intros q Hs Hu Hq; simpl; [exact Hq|].
  apply IH; [intro; apply Hs; simpl; tauto|intro; apply Hu; simpl; tauto|].
  destruct c as [x|x]; simpl.
  - apply first_before_Set; [|exact Hq].
    intros ->; apply Hs; simpl; tauto.
  - apply first_before_remove; [|exact Hq].
    intros ->; apply Hu; simpl; tauto.
Qed.

Lemma first_before_drain {St : Type} (handler : St -> jobs -> job -> St * list action)
    (b a : job) :
  a <> b ->
  forall n s q log,
  first_before b a q = true -> drain handler n s q = (log, []) ->
  ~ In (ASet a) (calls_before b log) -> ~ In (AUnset b) (calls_before b log) ->
  first_before b a (trace log) = true.
Proof.
  intros Hab n; induction n as [|n IH]; intros s q log Hq Hd Hs Hu; simpl in Hd.
  - inversion Hd; subst; discriminate.
  - destruct q as [|x t]; [discriminate|].
    destruct (handler s t x) as [s' acts] eqn:Eh.
    destruct (drain handler n s' (apply_actions t acts)) as [log' rest] eqn:E.
    inversion Hd; subst; clear Hd. simpl in Hq, Hs, Hu |- *.
    destruct (Nat.eqb_spec x b); [reflexivity|].
    destruct (Nat.eqb_spec x a); [discriminate|].
    apply (IH s' (apply_actions t acts)); [| exact E |
      intros H; apply Hs, in_or_app; right; exact H |
      intros H; apply Hu, in_or_app; right; exact H].
    apply first_before_actions; [| |exact Hq];
      intros H; [apply Hs|apply Hu]; apply in_or_app; left; exact H.
Qed.

(** Handlers that set nothing: the jobs run in the reverse of their [Set]
    order. *)
Example lifo_three :
  trace (fst (drain (fun s _ _ => (s, [])) 10 tt
    (BPending_Set 3 (BPending_Set 2 (BPending_Set 1 []))))) = [3; 2; 1].
Proof. reflexivity. Qed.

(** A job set from inside a handler is placed above every job on the list. *)
Example lifo_nested :
  trace (fst (drain (fun s _ h => (s, if Nat.eqb h 3 then [ASet 4] else [])) 10 tt
    (BPending_Set 3 (BPending_Set 2 (BPending_Set 1 []))))) = [3; 4; 2; 1].
Proof. reflexivity. Qed.

(** A handler whose calls change between runs: job 5 sets itself again on its
    first two runs (its state counts the runs left), then stops. *)
Example self_reset_bounded :
  trace (fst (drain (fun s _ h =>
      if Nat.eqb h 5 then (pred s, if Nat.eqb s 0 then [] else [ASet 5]) else (s, []))
    10 2 (BPending_Set 5 (BPending_Set 1 [])))) = [5; 5; 5; 1].
Proof. reflexivity. Qed.

(** C4 (counterexample): job 1 (A) is set before job 2 (B) with no execution in
    between, then job 3 whose handler sets job 1 again; draining runs A before
    B. *)
Lemma C4_counterexample :
  trace (fst (drain (fun s _ h => (s, if Nat.eqb h 3 then [ASet 1] else [])) 10 tt
    (BPending_Set 3 (BPending_Set 2 (BPending_Set 1 []))))) = [3; 1; 2] /\
  snd (drain (fun s _ h => (s, if Nat.eqb h 3 then [ASet 1] else [])) 10 tt
    (BPending_Set 3 (BPending_Set 2 (BPending_Set 1 [])))) = [] /\
  first_before 2 1 [3; 1; 2] = false.
Proof. split; [|split]; reflexivity. Qed.

(** C4 (amended): if job [a] is set, then (after any non-executing queue
    operations [pre]) job [b] is set, then further operations [post] that
    neither set [a] again nor unset [b] are made, and the handlers that run
    before [b] runs neither set [a] nor unset [b], then a drain that empties the
    queue runs [b]'s handler before [a]'s. The handlers are arbitrary: they may
    keep state and query the list, and what they do after [b] has run is
    unconstrained. *)
Theorem C4_set_order_lifo {St : Type} (handler : St -> jobs -> job -> St * list action)
    (s : St) (a b : job) (q0 : jobs) (pre post : list action) (n : nat)
    (log : list (job * list action)) :
  a <> b ->
  ~ In (ASet a) post -> ~ In (AUnset b) post ->
  drain handler n s
    (apply_actions (BPending_Set b (apply_actions (BPending_Set a q0) pre)) post)
    = (log, []) ->
  ~ In (ASet a) (calls_before b log) -> ~ In (AUnset b) (calls_before b log) ->
  first_before b a (trace log) = true.
Proof.
  intros Hab Hs Hu Hd Hhs Hhu.
  eapply first_before_drain; [exact Hab| |exact Hd|exact Hhs|exact Hhu].
  apply first_before_actions; [exact Hs|exact Hu|apply first_before_Set_top].
Qed.

(** Job 1 (A) is set, then job 2 (B); B's own handler sets A again, which is
    allowed since it happens once B runs. *)
Lemma C4_set_order_lifo_witness :
  first_before 2 1
    (trace (fst (drain (fun s _ h => (s, if Nat.eqb h 2 then [ASet 1] else [])) 10 tt
       (BPending_Set 2 (BPending_Set 1 []))))) = true.
Proof.
  apply (C4_set_order_lifo (fun s _ h => (s, if Nat.eqb h 2 then [ASet 1] else []))
           tt 1 2 [] [] [] 10).
  - discriminate.
  - simpl; tauto.
  - simpl; tauto.
  - reflexivity.
  - simpl; tauto.
  - simpl; tauto.
Defined.

(** C5 (counterexample): with [h] already set, [Set h; Unset h] removes [h]
    from the list instead of restoring it. *)
Lemma C5_counterexample :
  ~ (forall (h : job) (q : jobs), BPending_Unset h (BPending_Set h q) = q).
Proof. intros H. specialize (H 1%nat [1%nat]). discriminate H. Qed.

(** C5 (amended): [Set h] then [Unset h] has the effect of [Unset h] alone; in
    particular, when [h] was not set, the job list is left exactly as it was. *)
Theorem C5_set_unset (h : job) (q : jobs) :
  BPending_Unset h (BPending_Set h q) = BPending_Unset h q /\
  (BPending_IsSet h q = false -> BPending_Unset h (BPending_Set h q) = q).
Proof.
  unfold BPending_Unset, BPending_Set; simpl; rewrite Nat.eqb_refl.
  split; [apply remove_job_idem|].
  intros Hs. rewrite remove_job_idem. apply remove_job_notin, IsSet_false_notin, Hs.
Qed.

Lemma C5_set_unset_witness :
  BPending_Unset 5 (BPending_Set 5 [1; 2; 3]) = [1; 2; 3]%nat.
Proof. apply (C5_set_unset 5 [1; 2; 3]%nat). reflexivity. Defined.

Lemma remove_job_in (h y : job) (q : jobs) :
  In y (remove_job h q) <-> In y q /\ y <> h.
Proof.
  induction q as [|x t IH]; simpl; [tauto|].
  destruct (Nat.eqb_spec x h) as [->|Hx]; simpl; rewrite IH;
    split; intuition congruence.
Qed.

Lemma remove_job_nodup (h : job) (q : jobs) :
  NoDup q -> NoDup (remove_job h q).
Proof.
  induction q as [|x t IH]; simpl; intros Hn; [constructor|].
  inversion Hn; subst.
  destruct (Nat.eqb_spec x h); [auto|].
  constructor; [rewrite remove_job_in; tauto|auto].
Qed.

Lemma apply_actions_nodup (l : list action) (q : jobs) :
  NoDup q -> NoDup (apply_actions q l).
Proof.
  revert q; induction l as [|[x|x] t IH]; intros q Hn; simpl; [exact Hn| |].
  - apply IH. unfold BPending_Set. constructor; [apply remove_job_not_in|].
    apply remove_job_nodup, Hn.
  - apply IH, remove_job_nodup, Hn.
Qed.

(** A job is on the group's list at most once: from a duplicate-free list,
    any sequence of [Set] and [Unset] calls, and the execution of jobs by any
    handlers (stateful, querying the list, making different calls on each
    run), keep it duplicate-free. *)
Theorem bp_jobs_nodup (q : jobs) :
  NoDup q ->
  (forall l, NoDup (apply_actions q l)) /\
  (forall (St : Type) (handler : St -> jobs -> job -> St * list action) fuel s,
     NoDup (snd (drain handler fuel s q))).
Proof.
  intros Hn. split; [intros l; apply apply_actions_nodup, Hn|].
  intros St handler fuel. revert q Hn. induction fuel as [|n IH]; intros q Hn s;
    [exact Hn|].
  destruct q as [|h t]; simpl; [constructor|].
  inversion Hn; subst.
  destruct (handler s t h) as [s' acts].
  destruct (drain handler n s' (apply_actions t acts)) as [log rest] eqn:E.
  simpl. change rest with (snd (log, rest)). rewrite <- E.
  apply IH, apply_actions_nodup. assumption.
Qed.

Lemma bp_jobs_nodup_witness :
  NoDup (apply_actions [3; 2; 1]%nat [ASet 1; AUnset 2; ASet 4])%nat /\
  NoDup (snd (drain (fun s _ h => (S s, if Nat.ltb s 2 then [ASet h; ASet 7] else []))
                    3 0 [3; 2; 1]%nat)).
Proof.
  destruct (bp_jobs_nodup [3; 2; 1]%nat) as [H1 H2];
    [repeat constructor; simpl; intuition discriminate|].
  split; [apply H1|apply H2].
Defined.

Lemma apply_actions_not_in (h : job) (l : list action) (q : jobs) :
  ~ In h q -> ~ In (ASet h) l -> ~ In h (apply_actions q l).
Proof.
  revert q; induction l as [|[x|x] t IH]; intros q Hq Hl; simpl; [exact Hq| |].
  - apply IH; [|intros Ht; apply Hl; right; exact Ht].
    unfold BPending_Set. simpl. intros [E|E].
    + subst. apply Hl. left. reflexivity.
    + apply remove_job_in in E. tauto.
  - apply IH; [|intros Ht; apply Hl; right; exact Ht].
    unfold BPending_Unset. rewrite remove_job_in. tauto.
Qed.

(** A job that is not set, and that no handler run sets, is never executed,
    however long the group runs and whatever the handlers (stateful, querying
    the list, making different calls on each run) do otherwise. *)
Theorem bp_unset_never_runs {St : Type} (handler : St -> jobs -> job -> St * list action)
    (h : job) (fuel : nat) (s : St) (q : jobs) (log : list (job * list action))
    (rest : jobs) :
  ~ In h q -> drain handler fuel s q = (log, rest) ->
  ~ In (ASet h) (List.concat (map snd log)) ->
  ~ In h (trace log).
Proof.
  revert s q log rest. induction fuel as [|n IH]; intros s q log rest Hq Hd Hs;
    simpl in Hd.
  - inversion Hd; subst. simpl. tauto.
  - destruct q as [|x t]; [inversion Hd; subst; simpl; tauto|].
    destruct (handler s t x) as [s' acts] eqn:Eh.
    destruct (drain handler n s' (apply_actions t acts)) as [log' rest'] eqn:E.
    inversion Hd; subst; clear Hd. simpl in Hs |- *.
    intros [Ex|Hin].
    + subst. apply Hq. left. reflexivity.
    + apply (IH s' (apply_actions t acts) log' rest); [| exact E | |exact Hin].
      * apply apply_actions_not_in.
        -- intros Ht; apply Hq; right; exact Ht.
        -- intros H; apply Hs, in_or_app; left; exact H.
      * intros H; apply Hs, in_or_app; right; exact H.
Qed.

(** Job 9 is unset before the drain; job 3 re-sets itself once (its state
    counts down) and sets job 5; nobody sets 9 again. *)
Lemma bp_unset_never_runs_witness :
  ~ In 9%nat (trace (fst (drain
      (fun s _ x => if Nat.eqb x 3 then (pred s, if Nat.eqb s 0 then [] else [ASet 3; ASet 5])
                    else (s, []))
      10 1 (BPending_Unset 9 [3; 9; 1]%nat)))).
Proof.
  apply (bp_unset_never_runs
      (fun s _ x => if Nat.eqb x 3 then (pred s, if Nat.eqb s 0 then [] else [ASet 3; ASet 5])
                    else (s, []))
      9 10 1 (BPending_Unset 9 [3; 9; 1]%nat) _
      (snd (drain (fun s _ x => if Nat.eqb x 3 then (pred s, if Nat.eqb s 0 then [] else [ASet 3; ASet 5])
                    else (s, [])) 10 1 (BPending_Unset 9 [3; 9; 1]%nat)))).
  - vm_compute. intuition discriminate.
  - reflexivity.
  - vm_compute. intuition discriminate.
Defined.

End BPendingFacts.

Module DataProtoFacts.
Import DataProto.

(** C8 (counterexample): [DataProtoDest] has a [dest_id] member. *)
Lemma C8_counterexample : ~ dest_without_dest_id.
Proof. unfold dest_without_dest_id. intros [H _]. discriminate H. Qed.

(** C8 (amended): both [DataProtoDest] and [DataProtoLocalSource] carry a
    [dest_id] member (the older shape of DataProto.h). *)
Theorem C8_dest_id_fields :
  has_field DataProtoDest_fields "dest_id" = true /\
  has_field DataProtoLocalSource_fields "dest_id" = true /\
  has_field DataProtoLocalSource_fields "source_id" = true.
Proof. repeat split; reflexivity. Qed.

End DataProtoFacts.

Module PQFacts.
Import PQ.

Lemma cmp_neg (a b : Z) : (int_comparator a b <? 0) = (a <? b).
Proof.
  unfold int_comparator.
  destruct (Z.ltb_spec a b); [reflexivity|].
  destruct (Z.gtb_spec a b); reflexivity.
Qed.

Lemma heap_first_in (fs : flow_id -> flow) (x : flow_id) (t : list flow_id) :
  In (heap_first_from fs x t) (x :: t).
Proof.
  revert x; induction t as [|z t IH]; intros x; simpl; [tauto|].
  destruct (_ <? 0).
  - specialize (IH z); simpl in IH; tauto.
  - specialize (IH x); simpl in IH; tauto.
Qed.

Lemma heap_first_min (fs : flow_id -> flow) (x : flow_id) (t : list flow_id) :
  forall y, In y (x :: t) ->
  (fl_priority (fs (heap_first_from fs x t)) <= fl_priority (fs y))%Z.
Proof.
  revert x; induction t as [|z t IH]; intros x y Hy; simpl.
  - destruct Hy as [->|[]]; lia.
  - rewrite cmp_neg. destruct (Z.ltb_spec (fl_priority (fs z)) (fl_priority (fs x))) as [Hlt|Hge].
    + destruct Hy as [->|Hy].
      * specialize (IH z z (or_introl eq_refl)); lia.
      * apply IH; exact Hy.
    + destruct Hy as [->|[->|Hy]].
      * apply IH; left; reflexivity.
      * specialize (IH x x (or_introl eq_refl)); lia.
      * apply IH; right; exact Hy.
Qed.

Lemma GetFirst_spec (m : queue) (q : flow_id) :
  BHeap_GetFirst m = Some q ->
  In q (queued_heap m) /\
  forall y, In y (queued_heap m) ->
  (fl_priority (flows m q) <= fl_priority (flows m y))%Z.
Proof.
  unfold BHeap_GetFirst. destruct (queued_heap m) as [|x t]; [discriminate|].
  intros H; inversion H; subst; split; [apply heap_first_in|apply heap_first_min].
Qed.

Lemma GetFirst_some (m : queue) :
  queued_heap m <> [] -> exists q, BHeap_GetFirst m = Some q.
Proof.
  unfold BHeap_GetFirst; destruct (queued_heap m); [congruence|eauto].
Qed.

Lemma Remove_in (h : list flow_id) (f y : flow_id) :
  In y (BHeap_Remove h f) -> In y h.
Proof.
  induction h as [|x t IH]; simpl; [tauto|].
  destruct (Nat.eqb_spec x f); simpl; tauto.
Qed.

Lemma Remove_notin (h : list flow_id) (f : flow_id) :
  NoDup h -> ~ In f (BHeap_Remove h f).
Proof.
  induction h as [|x t IH]; simpl; intros Hn; [tauto|].
  inversion Hn; subst.
  destruct (Nat.eqb_spec x f) as [->|Hx]; [assumption|].
  simpl; intros [E|E]; [congruence|tauto].
Qed.

Lemma Remove_keep (h : list flow_id) (f y : flow_id) :
  In y h -> y <> f -> In y (BHeap_Remove h f).
Proof.
  induction h as [|x t IH]; simpl; [tauto|].
  destruct (Nat.eqb_spec x f) as [->|Hx]; intros [E|E] Hy; subst; simpl;
    first [tauto | congruence].
Qed.

Lemma Remove_nodup (h : list flow_id) (f : flow_id) :
  NoDup h -> NoDup (BHeap_Remove h f).
Proof.
  induction h as [|x t IH]; simpl; intros Hn; [constructor|].
  inversion Hn; subst.
  destruct (Nat.eqb_spec x f); [assumption|].
  constructor; [intros E; apply Remove_in in E; tauto|auto].
Qed.

Lemma Insert_nodup (h : list flow_id) (f : flow_id) :
  NoDup h -> ~ In f h -> NoDup (BHeap_Insert h f).
Proof.
  unfold BHeap_Insert; induction h as [|x t IH]; simpl; intros Hn Hf.
  - constructor; [tauto|constructor].
  - inversion Hn; subst. constructor; [|apply IH; tauto].
    rewrite in_app_iff; simpl; intros [E|[E|[]]]; [tauto|]. subst; tauto.
Qed.

(** The record updates, read back. *)
Ltac qsimpl :=
  unfold set_flow, set_flows, set_sending, set_sending_len, set_heap,
    set_freeing, set_use_cancel, set_schedule_job, emit, upd,
    flow_set_queued, flow_set_packet, flow_set_handler_busy,
    flow_set_input_busy, flow_set_alive, is_sending in *; simpl in *.

Ltac eqb_cases :=
  repeat match goal with
  | |- context [Nat.eqb ?a ?b] => destruct (Nat.eqb_spec a b); subst
  | H : context [Nat.eqb ?a ?b] |- _ => destruct (Nat.eqb_spec a b); subst
  end.

Lemma schedule_spec (m m' : queue) :
  schedule m = Some m' ->
  exists q, BHeap_GetFirst m = Some q /\ freeing m = false /\
    sending_flow m = None /\ fl_is_queued (flows m q) = true /\
    m' = set_sending_len
           (set_sending
              (emit (set_flow (set_heap m (BHeap_Remove (queued_heap m) q)) q
                       (flow_set_queued (flows m q) false))
                    (OSend q (fl_data (flows m q)) (fl_data_len (flows m q))))
              (Some q))
           (fl_data_len (flows m q)).
Proof.
  unfold schedule. destruct (freeing m); [discriminate|]; simpl.
  destruct (sending_flow m); [discriminate|]; simpl.
  destruct (BHeap_GetFirst m) as [q|]; [|discriminate].
  destruct (fl_is_queued (flows m q)) eqn:Hq; [|discriminate].
  intros H; inversion H; subst; eexists; repeat split; auto.
Qed.

Lemma inv_init : inv PacketPassPriorityQueue_Init.
Proof.
  constructor; simpl; try (intros; discriminate); try tauto. constructor.
Qed.

Lemma inv_schedule (m m' : queue) : inv m -> schedule m = Some m' -> inv m'.
Proof.
  intros I Hs. destruct (schedule_spec m m' Hs) as (q & Hf & Hfr & Hsn & Hq & ->).
  destruct (GetFirst_spec m q Hf) as [Hin _].
  destruct I as [N Hh Hqd Hsd Hb].
  constructor; qsimpl.
  - apply Remove_nodup, N.
  - intros f Hf'. pose proof (Remove_in _ _ _ Hf') as Hf0.
    assert (f <> q) by (intros ->; exact (Remove_notin _ _ N Hf')).
    eqb_cases; [congruence|]. apply Hh, Hf0.
  - intros f. eqb_cases; simpl; [discriminate|].
    intros Ha Hq'. apply Remove_keep; [apply Hqd; assumption|assumption].
  - intros f E; inversion E; subst. rewrite Nat.eqb_refl; simpl.
    destruct (Hh f Hin) as [Ha _]. repeat split; [exact Ha|]. apply Hb; assumption.
  - intros f. eqb_cases; simpl; [discriminate|]. apply Hb.
Qed.

(** Steps that change none of the fields the invariant reads, except that they
    may clear the sending flow. *)
Lemma inv_ext (m m' : queue) :
  inv m -> queued_heap m' = queued_heap m ->
  (sending_flow m' = sending_flow m \/ sending_flow m' = None) ->
  (forall g, fl_alive (flows m' g) = fl_alive (flows m g) /\
             fl_is_queued (flows m' g) = fl_is_queued (flows m g) /\
             fl_input_busy (flows m' g) = fl_input_busy (flows m g)) ->
  inv m'.
Proof.
  intros [N Hh Hqd Hsd Hb] Eh Es Ef.
  constructor; rewrite ?Eh.
  - exact N.
  - intros f Hf. destruct (Ef f) as (-> & -> & _). auto.
  - intros f. destruct (Ef f) as (-> & -> & _). auto.
  - intros f Hs. destruct Es as [E|E]; rewrite E in Hs; [|discriminate].
    destruct (Ef f) as (-> & -> & ->). auto.
  - intros f. destruct (Ef f) as (-> & -> & ->). auto.
Qed.

Lemma inv_schedule_job_handler (m m' : queue) :
  inv m -> schedule_job_handler m = Some m' -> inv m'.
Proof.
  unfold schedule_job_handler. intros I.
  destruct (freeing m); [discriminate|]; simpl.
  destruct (has_flow (sending_flow m)); [discriminate|]; simpl.
  destruct (BHeap_GetFirst m).
  - apply inv_schedule, I.
  - intros E; inversion E; subst; exact I.
Qed.

Lemma inv_enqueue (m : queue) (f : flow_id) (d l : Z) :
  inv m ->
  let m0 := set_flow m f (flow_set_input_busy (flows m f) true) in
  is_sending m0 f = false -> fl_is_queued (flows m0 f) = false ->
  fl_alive (flows m0 f) = true ->
  let m1 := set_flow m0 f (flow_set_packet (flows m0 f) d l) in
  let m2 := set_heap m1 (BHeap_Insert (queued_heap m1) f) in
  inv (set_flow m2 f (flow_set_queued (flows m2 f) true)).
Proof.
  intros [N Hh Hqd Hsd Hb] m0 Hsf Hq Ha m1 m2.
  subst m0 m1 m2. qsimpl. rewrite Nat.eqb_refl in *; simpl in *.
  assert (Hnin : ~ In f (queued_heap m)).
  { intros Hin. destruct (Hh f Hin) as [_ E]; congruence. }
  constructor; qsimpl.
  - apply Insert_nodup; assumption.
  - intros g Hg. unfold BHeap_Insert in Hg. rewrite in_app_iff in Hg; simpl in Hg.
    eqb_cases; simpl; [auto|]. destruct Hg as [Hg|[E|[]]]; [auto|congruence].
  - intros g. unfold BHeap_Insert; rewrite in_app_iff; simpl.
    eqb_cases; simpl; [tauto|]. intros Ha' Hq'. left; auto.
  - intros g Hg. destruct (sending_flow m) as [s|] eqn:Es; [|discriminate].
    inversion Hg; subst. eqb_cases; [discriminate|]. auto.
  - intros g. eqb_cases; simpl; auto.
Qed.

Lemma inv_input_send (m m' : queue) (f : flow_id) (d l : Z) :
  inv m -> step m (InputSend f d l) = Some m' -> inv m'.
Proof.
  intros I. simpl. unfold input_handler_send.
  destruct (freeing _) eqn:Hfr; [discriminate|].
  destruct (is_sending _ f) eqn:Hsf; [discriminate|].
  destruct (fl_is_queued _) eqn:Hq; [discriminate|].
  destruct (fl_alive _) eqn:Ha; [|discriminate].
  cbv beta iota zeta.
  pose proof (inv_enqueue m f d l I Hsf Hq Ha) as I3.
  destruct (negb (has_flow _) && negb _).
  - apply inv_schedule, I3.
  - intros E; inversion E; subst; exact I3.
Qed.

Lemma inv_output_done (m m' : queue) :
  inv m -> output_handler_done m = Some m' -> inv m'.
Proof.
  intros I. unfold output_handler_done.
  destruct (freeing m); [discriminate|]; simpl.
  destruct (sending_flow m) as [f|] eqn:Es; [|discriminate].
  destruct (fl_is_queued (flows m f)) eqn:Hq; [discriminate|]; simpl.
  destruct (schedule_job m); [discriminate|]; simpl.
  destruct I as [N Hh Hqd Hsd Hb].
  assert (Hnin : ~ In f (queued_heap m)).
  { intros Hin. destruct (Hh f Hin) as [_ E]; congruence. }
  qsimpl. rewrite Nat.eqb_refl; simpl.
  destruct (fl_handler_busy (flows m f)); intros E; inversion E; subst;
    constructor; simpl; try (intros; discriminate); try exact N.
  all: intros g; eqb_cases; simpl; auto.
  all: intros; congruence.
Qed.

Lemma Flow_Free_spec (m m' : queue) (f : flow_id) :
  Flow_Free m f = Some m' ->
  fl_alive (flows m f) = true /\
  queued_heap m' = (if fl_is_queued (flows m f)
                    then BHeap_Remove (queued_heap m) f else queued_heap m) /\
  sending_flow m' = (if is_sending m f then None else sending_flow m) /\
  flows m' = upd (flows m) f (flow_set_alive (flows m f) false) /\
  sending_len m' = sending_len m /\ schedule_job m' = schedule_job m /\
  freeing m' = freeing m /\ use_cancel m' = use_cancel m /\ output m' = output m.
Proof.
  unfold Flow_Free. destruct (freeing m || negb (is_sending m f)); [|discriminate].
  destruct (fl_alive (flows m f)) eqn:Ha; [|discriminate].
  qsimpl.
  destruct (sending_flow m) as [s|]; [destruct (Nat.eqb s f)|]; simpl;
    rewrite ?Nat.eqb_refl; simpl;
    destruct (fl_is_queued (flows m f)); intros E; inversion E; subst; simpl;
    repeat split; auto.
Qed.

Lemma inv_flow_free (m m' : queue) (f : flow_id) :
  inv m -> Flow_Free m f = Some m' -> inv m'.
Proof.
  intros [N Hh Hqd Hsd Hb] H.
  destruct (Flow_Free_spec m m' f H) as (Ha & Eh & Es & Ef & _).
  assert (Hnin : fl_is_queued (flows m f) = false -> ~ In f (queued_heap m)).
  { intros E Hin. destruct (Hh f Hin) as [_ E']; congruence. }
  assert (Hh' : forall g, In g (queued_heap m') -> In g (queued_heap m) /\ g <> f).
  { intros g Hg. rewrite Eh in Hg. destruct (fl_is_queued (flows m f)) eqn:Hq.
    - split; [exact (Remove_in _ _ _ Hg)|intros ->; exact (Remove_notin _ _ N Hg)].
    - split; [exact Hg|intros ->; exact (Hnin eq_refl Hg)]. }
  constructor.
  - rewrite Eh. destruct (fl_is_queued (flows m f)); [apply Remove_nodup|]; exact N.
  - intros g Hg. destruct (Hh' g Hg) as [Hg0 Hgf]. rewrite Ef; unfold upd.
    destruct (Nat.eqb_spec g f); [congruence|auto].
  - intros g. rewrite Ef; unfold upd, flow_set_alive.
    destruct (Nat.eqb_spec g f); simpl; [discriminate|]. intros Ha' Hq'.
    rewrite Eh. destruct (fl_is_queued (flows m f)); [apply Remove_keep|]; auto.
  - intros g Hg. rewrite Es in Hg. unfold is_sending in Hg.
    destruct (sending_flow m) as [s|] eqn:Es0; [|discriminate].
    destruct (Nat.eqb_spec s f); [discriminate|]. inversion Hg; subst.
    rewrite Ef; unfold upd. destruct (Nat.eqb_spec g f); [congruence|auto].
  - intros g. rewrite Ef; unfold upd, flow_set_alive.
    destruct (Nat.eqb_spec g f); simpl; [discriminate|auto].
Qed.

Lemma inv_flow_init (m m' : queue) (f : flow_id) (p : Z) :
  inv m -> Flow_Init m f p = Some m' -> inv m'.
Proof.
  intros [N Hh Hqd Hsd Hb]. unfold Flow_Init.
  destruct (freeing m); [discriminate|].
  destruct (fl_alive (flows m f)) eqn:Ha; [discriminate|].
  intros E; inversion E; subst; clear E.
  assert (Hnin : ~ In f (queued_heap m)).
  { intros Hin. destruct (Hh f Hin) as [E _]; congruence. }
  constructor; qsimpl.
  - exact N.
  - intros g Hg. eqb_cases; [tauto|auto].
  - intros g. eqb_cases; simpl; [discriminate|auto].
  - intros g Hg. eqb_cases; [|auto]. destruct (Hsd _ Hg) as [E _]; congruence.
  - intros g. eqb_cases; simpl; [discriminate|auto].
Qed.

Lemma inv_step (m m' : queue) (o : op) : inv m -> step m o = Some m' -> inv m'.
Proof.
  intros I. destruct o as [f p|f d l| | |f|f|f| |]; intros H.
  - exact (inv_flow_init m m' f p I H).
  - exact (inv_input_send m m' f d l I H).
  - exact (inv_output_done m m' I H).
  - simpl in H. destruct (schedule_job m); [|discriminate].
    eapply inv_schedule_job_handler; [|exact H].
    apply (inv_ext m); auto.
  - exact (inv_flow_free m m' f I H).
  - simpl in H; unfold Flow_Release in H.
    destruct (use_cancel m), (is_sending m f), (freeing m), (schedule_job m),
      (fl_alive (flows m f)); try discriminate.
    inversion H; subst. apply (inv_ext m); auto.
  - simpl in H; unfold Flow_SetBusyHandler in H.
    destruct (is_sending m f), (freeing m), (fl_alive (flows m f)); try discriminate.
    inversion H; subst. apply (inv_ext m); auto.
    intros g; qsimpl; eqb_cases; auto.
  - simpl in H; unfold EnableCancel in H. destruct (use_cancel m); [discriminate|].
    inversion H; subst. apply (inv_ext m); auto.
  - simpl in H; unfold PrepareFree in H. inversion H; subst.
    apply (inv_ext m); auto.
Qed.

Lemma reachable_inv (m : queue) : reachable m -> inv m.
Proof.
  induction 1 as [|m o m' _ IH Hs]; [apply inv_init|].
  exact (inv_step m m' o IH Hs).
Qed.

Lemma schedule_ok (m : queue) :
  inv m -> freeing m = false -> sending_flow m = None -> queued_heap m <> [] ->
  exists m', schedule m = Some m'.
Proof.
  intros I Hf Hs Hne. destruct (GetFirst_some m Hne) as [q Hq].
  destruct (GetFirst_spec m q Hq) as [Hin _].
  destruct (inv_heap m I q Hin) as [_ Hqq].
  unfold schedule. rewrite Hf, Hs, Hq, Hqq. simpl. eauto.
Qed.

Lemma run_reachable (m m' : queue) (os : list op) :
  reachable m -> run m os = Some m' -> reachable m'.
Proof.
  revert m; induction os as [|o os IH]; intros m R H; simpl in H.
  - inversion H; subst; exact R.
  - destruct (step m o) as [m1|] eqn:Hs; [|discriminate].
    exact (IH m1 (reach_step m o m1 R Hs) H).
Qed.

Example ex_q0_state :
  sending_flow ex_q0 = Some 1%nat /\ queued_heap ex_q0 = [2; 3]%nat /\
  output ex_q0 = [OSend 1%nat 100 10].
Proof. vm_compute; repeat split; reflexivity. Qed.

Example ex_q2_state :
  sending_flow ex_q2 = Some 2%nat /\ queued_heap ex_q2 = [3%nat] /\
  output ex_q2 = [OSend 2%nat 200 20; OSend 1%nat 100 10] /\ schedule_job ex_q2 = false.
Proof. vm_compute; repeat split; reflexivity. Qed.

(** C1: in every reachable state of the queue, each flow has at most one
    packet queued or in flight; a queued or sending flow has its input busy, so
    under the PacketPassInterface contract its producer may not send again;
    and a producer that sends on a live, idle input (queue not freeing) finds
    the flow neither sending nor queued, so [input_handler_send]'s assertions
    hold and the step succeeds. *)
Theorem C1_one_packet_per_flow (m : queue) :
  reachable m ->
  (forall f, (in_flight m f <= 1)%nat) /\
  (forall f, fl_alive (flows m f) = true ->
     fl_is_queued (flows m f) = true \/ is_sending m f = true ->
     fl_input_busy (flows m f) = true) /\
  (forall f d l, fl_alive (flows m f) = true -> fl_input_busy (flows m f) = false ->
     freeing m = false ->
     is_sending m f = false /\ fl_is_queued (flows m f) = false /\
     exists m', step m (InputSend f d l) = Some m').
Proof.
  intros R. pose proof (reachable_inv m R) as I.
  pose proof I as I0; destruct I0 as [N Hh Hqd Hsd Hb].
  assert (Hsq : forall f, is_sending m f = true ->
            fl_alive (flows m f) = true /\ fl_is_queued (flows m f) = false /\
            fl_input_busy (flows m f) = true).
  { intros f; unfold is_sending. destruct (sending_flow m) as [s|] eqn:Es; [|discriminate].
    destruct (Nat.eqb_spec s f); [subst; auto|discriminate]. }
  split; [|split].
  - intros f. unfold in_flight.
    destruct (is_sending m f) eqn:Es.
    + destruct (Hsq f Es) as (_ & Hq & _).
      assert (~ In f (queued_heap m)).
      { intros Hin; destruct (Hh f Hin); congruence. }
      rewrite (proj1 (count_occ_not_In Nat.eq_dec _ _) H). lia.
    + pose proof (proj1 (NoDup_count_occ Nat.eq_dec _) N f). lia.
  - intros f Ha [Hq|Hs]; [auto|]. apply (Hsq f Hs).
  - intros f d l Ha Hb0 Hfr.
    assert (Hs : is_sending m f = false).
    { destruct (is_sending m f) eqn:E; [|reflexivity].
      destruct (Hsq f E) as (_ & _ & Hb1); congruence. }
    assert (Hq : fl_is_queued (flows m f) = false).
    { destruct (fl_is_queued (flows m f)) eqn:E; [|reflexivity].
      rewrite (Hb f Ha E) in Hb0; discriminate. }
    split; [exact Hs|split; [exact Hq|]].
    simpl. unfold input_handler_send.
    set (m0 := set_flow m f (flow_set_input_busy (flows m f) true)).
    assert (Hsf0 : is_sending m0 f = false) by (subst m0; qsimpl; exact Hs).
    assert (Hq0 : fl_is_queued (flows m0 f) = false)
      by (subst m0; qsimpl; rewrite Nat.eqb_refl; exact Hq).
    assert (Ha0 : fl_alive (flows m0 f) = true)
      by (subst m0; qsimpl; rewrite Nat.eqb_refl; exact Ha).
    assert (Hfr0 : freeing m0 = false) by (subst m0; qsimpl; exact Hfr).
    rewrite Hfr0, Hsf0, Hq0, Ha0. cbn [negb].
    pose proof (inv_enqueue m f d l I Hsf0 Hq0 Ha0) as I3.
    match goal with |- exists _, (if ?b then schedule ?m3 else _) = _ =>
      destruct b eqn:Eb; [|eauto];
      apply andb_true_iff in Eb; destruct Eb as [E1 E2];
      apply (schedule_ok m3 I3)
    end.
    + subst m0; qsimpl; exact Hfr.
    + destruct (sending_flow _); [discriminate|reflexivity].
    + subst m0; qsimpl. unfold BHeap_Insert; destruct (queued_heap m); discriminate.
Qed.

Lemma C1_one_packet_per_flow_witness :
  (forall f, (in_flight ex_q0 f <= 1)%nat) /\
  (forall f, fl_alive (flows ex_q0 f) = true ->
     fl_is_queued (flows ex_q0 f) = true \/ is_sending ex_q0 f = true ->
     fl_input_busy (flows ex_q0 f) = true) /\
  (forall f d l, fl_alive (flows ex_q0 f) = true ->
     fl_input_busy (flows ex_q0 f) = false -> freeing ex_q0 = false ->
     is_sending ex_q0 f = false /\ fl_is_queued (flows ex_q0 f) = false /\
     exists m', step ex_q0 (InputSend f d l) = Some m').
Proof.
  apply (C1_one_packet_per_flow ex_q0).
  apply (run_reachable PacketPassPriorityQueue_Init ex_q0 ex_ops); [constructor|].
  vm_compute; reflexivity.
Defined.

Lemma cons_neq {A : Type} (x : A) (l : list A) : l <> x :: l.
Proof. intros E. apply (f_equal (@List.length A)) in E. simpl in E. lia. Qed.

Lemma schedule_min (m m' : queue) :
  schedule m = Some m' ->
  exists q, sending_flow m' = Some q /\
    output m' = OSend q (fl_data (flows m q)) (fl_data_len (flows m q)) :: output m /\
    In q (queued_heap m) /\ queued_heap m' = BHeap_Remove (queued_heap m) q /\
    schedule_job m' = schedule_job m /\
    (forall f, fl_priority (flows m' f) = fl_priority (flows m f)) /\
    (forall f, In f (queued_heap m) ->
       (fl_priority (flows m q) <= fl_priority (flows m f))%Z).
Proof.
  intros Hs. destruct (schedule_spec m m' Hs) as (q & Hf & _ & _ & _ & ->).
  destruct (GetFirst_spec m q Hf) as [Hin Hmin].
  exists q; qsimpl; repeat split; auto.
  intros f; eqb_cases; reflexivity.
Qed.

(** Every step either leaves the output untouched, cancels on it, or ends in
    [schedule] on an intermediate state [m3] holding the queued flows of [m]
    (and the flow that just submitted a packet); the latter only when the
    schedule job was not set, or the step is the schedule job itself. *)
Lemma step_output (m m' : queue) (o : op) :
  step m o = Some m' ->
  output m' = output m \/
  (output m' = OCancel :: output m /\ queued_heap m' = queued_heap m) \/
  exists m3, schedule m3 = Some m' /\ output m3 = output m /\
    (forall f, fl_priority (flows m3 f) = fl_priority (flows m f)) /\
    (forall f, In f (queued_heap m) -> In f (queued_heap m3)) /\
    (forall f, In f (queued_heap m3) ->
       In f (queued_heap m) \/ exists d l, o = InputSend f d l) /\
    (forall f d l, o = InputSend f d l -> In f (queued_heap m3)) /\
    (schedule_job m = true -> o = RunScheduleJob).
Proof.
  destruct o as [f p|f d l| | |f|f|f| |]; simpl; intros H.
  - unfold Flow_Init in H. destruct (freeing m), (fl_alive (flows m f)); try discriminate.
    inversion H; subst; left; reflexivity.
  - unfold input_handler_send in H.
    destruct (freeing _); [discriminate|].
    destruct (is_sending _ f); [discriminate|].
    destruct (fl_is_queued _); [discriminate|].
    destruct (fl_alive _); [|discriminate].
    cbn [negb] in H.
    match type of H with (if ?b then schedule ?m3 else _) = _ =>
      destruct b eqn:Eb; [right; right; exists m3|left; inversion H; subst; reflexivity]
    end.
    apply andb_true_iff in Eb; destruct Eb as [_ Ej].
    split; [exact H|]. qsimpl.
    split; [reflexivity|]. split; [intros g; eqb_cases; reflexivity|].
    unfold BHeap_Insert. split; [intros g Hg; apply in_app_iff; left; exact Hg|].
    split.
    + intros g Hg. apply in_app_iff in Hg. destruct Hg as [Hg|[<-|[]]]; [left; exact Hg|].
      right; eauto.
    + split; [intros g d' l' E; inversion E; subst; apply in_app_iff; right; left; reflexivity|].
      intros Hj; rewrite Hj in Ej; discriminate.
  - left. unfold output_handler_done in H.
    destruct (freeing m); [discriminate|].
    destruct (sending_flow m) as [f|]; [|discriminate].
    destruct (fl_is_queued (flows m f)), (schedule_job m); try discriminate.
    qsimpl. destruct (_ : bool); inversion H; subst; reflexivity.
  - destruct (schedule_job m); [|discriminate].
    unfold schedule_job_handler in H. qsimpl.
    destruct (freeing m); [discriminate|].
    destruct (has_flow (sending_flow m)); [discriminate|].
    unfold BHeap_GetFirst in H; simpl in H. revert H.
    destruct (queued_heap m) as [|x t] eqn:Eh; intros H.
    + left; inversion H; subst; reflexivity.
    + right; right.
      eexists; split; [exact H|]; simpl.
      repeat split; auto. intros g d l E; discriminate E.
  - left. destruct (Flow_Free_spec m m' f H) as (_ & _ & _ & _ & _ & _ & _ & _ & E).
    exact E.
  - unfold Flow_Release in H.
    destruct (use_cancel m), (is_sending m f), (freeing m), (schedule_job m),
      (fl_alive (flows m f)); try discriminate.
    inversion H; subst. right; left; split; reflexivity.
  - unfold Flow_SetBusyHandler in H.
    destruct (is_sending m f), (freeing m), (fl_alive (flows m f)); try discriminate.
    inversion H; subst. left; reflexivity.
  - unfold EnableCancel in H. destruct (use_cancel m); [discriminate|].
    inversion H; subst; left; reflexivity.
  - unfold PrepareFree in H. inversion H; subst; left; reflexivity.
Qed.

Lemma Flow_Free_assert (m m' : queue) (f : flow_id) :
  Flow_Free m f = Some m' -> freeing m = true \/ is_sending m f = false.
Proof.
  unfold Flow_Free. destruct (freeing m), (is_sending m f); simpl; auto; discriminate.
Qed.

Lemma inv2_init : inv2 PacketPassPriorityQueue_Init.
Proof. constructor; simpl; intros; try discriminate; reflexivity. Qed.

Lemma inv2_schedule (m m' : queue) :
  schedule_job m = false -> schedule m = Some m' -> inv2 m'.
Proof.
  intros Hj Hs. destruct (schedule_spec m m' Hs) as (q & _ & _ & _ & _ & ->).
  constructor; qsimpl; try congruence.
  - intros f E; inversion E; subst. rewrite Nat.eqb_refl; simpl. eexists; reflexivity.
  - intros f E; inversion E; subst. rewrite Nat.eqb_refl; reflexivity.
Qed.

Lemma inv2_step (m m' : queue) (o : op) : inv2 m -> step m o = Some m' -> inv2 m'.
Proof.
  intros [J Id O Ln]. destruct o as [f p|f d l| | |f|f|f| |]; simpl; intros H.
  - unfold Flow_Init in H. destruct (freeing m), (fl_alive (flows m f)); try discriminate.
    inversion H; subst; clear H. constructor; qsimpl; auto.
    + intros g Hg. destruct (O g Hg) as [r E]. eqb_cases; simpl; eauto.
    + intros g Hg. rewrite (Ln g Hg). eqb_cases; reflexivity.
  - unfold input_handler_send in H.
    destruct (freeing _) eqn:Hfr; [discriminate|].
    destruct (is_sending _ f) eqn:Hsf; [discriminate|].
    destruct (fl_is_queued _); [discriminate|].
    destruct (fl_alive _); [|discriminate].
    cbn [negb] in H.
    match type of H with (if ?b then schedule ?m3 else _) = _ =>
      destruct b eqn:Eb; [|inversion H; subst; clear H]
    end.
    + apply andb_true_iff in Eb; destruct Eb as [_ Ej].
      eapply inv2_schedule; [|exact H]. destruct (schedule_job _); [discriminate|reflexivity].
    + qsimpl. constructor; simpl.
      * exact J.
      * intros Hf Hs Hj. rewrite Hs, Hj in Eb. discriminate.
      * intros g Hg. rewrite Hg in Hsf. destruct (O g Hg) as [r E]. eqb_cases; simpl in *; try discriminate; eauto.
      * intros g Hg. rewrite Hg in Hsf. rewrite (Ln g Hg). eqb_cases; simpl in *; try discriminate; reflexivity.
  - unfold output_handler_done in H.
    destruct (freeing m); [discriminate|].
    destruct (sending_flow m) as [f|]; [|discriminate].
    destruct (fl_is_queued (flows m f)), (schedule_job m); try discriminate.
    qsimpl. destruct (fl_handler_busy _); injection H as <-;
      constructor; simpl; intros; first [reflexivity | discriminate].
  - destruct (schedule_job m) eqn:Ej; [|discriminate].
    pose proof (J eq_refl) as Hs0.
    unfold schedule_job_handler in H.
    destruct (freeing _) eqn:Hfr; [discriminate|].
    destruct (has_flow _); [discriminate|]. cbn [negb] in H.
    destruct (BHeap_GetFirst _) eqn:Eg.
    + eapply inv2_schedule; [|exact H]. reflexivity.
    + inversion H; subst; clear H. unfold BHeap_GetFirst in Eg.
      constructor; qsimpl; try discriminate.
      * intros _ _ _. destruct (queued_heap m); [reflexivity|discriminate].
      * intros g Hg; rewrite Hs0 in Hg; discriminate.
      * intros g Hg; rewrite Hs0 in Hg; discriminate.
  - destruct (Flow_Free_spec m m' f H) as (_ & Eh & Es & Ef & El & Ej & Efr & _ & Eo).
    pose proof (Flow_Free_assert m m' f H) as Ha.
    constructor.
    + intros Hj. rewrite Es. rewrite Ej in Hj. rewrite (J Hj).
      destruct (is_sending m f); reflexivity.
    + intros Hf Hs Hj. rewrite Efr in Hf. rewrite Ej in Hj.
      destruct Ha as [Ha|Ha]; [congruence|]. rewrite Ha in Es. rewrite Es in Hs.
      rewrite Eh, (Id Hf Hs Hj). destruct (fl_is_queued _); reflexivity.
    + intros g Hg. rewrite Es in Hg. unfold is_sending in Hg.
      destruct (sending_flow m) as [s|] eqn:Es0; [|discriminate].
      destruct (Nat.eqb_spec s f); [discriminate|]. inversion Hg; subst.
      destruct (O g eq_refl) as [r E]. exists r. rewrite Eo, Ef, E. unfold upd.
      destruct (Nat.eqb_spec g f); [congruence|reflexivity].
    + intros g Hg. rewrite Es in Hg. unfold is_sending in Hg.
      destruct (sending_flow m) as [s|] eqn:Es0; [|discriminate].
      destruct (Nat.eqb_spec s f); [discriminate|]. inversion Hg; subst.
      rewrite El, Ef, (Ln g eq_refl). unfold upd.
      destruct (Nat.eqb_spec g f); [congruence|reflexivity].
  - unfold Flow_Release in H.
    destruct (use_cancel m), (is_sending m f), (freeing m), (schedule_job m),
      (fl_alive (flows m f)); try discriminate.
    inversion H; subst. constructor; simpl; intros; first [reflexivity | discriminate].
  - unfold Flow_SetBusyHandler in H.
    destruct (is_sending m f), (freeing m), (fl_alive (flows m f)); try discriminate.
    inversion H; subst; clear H. constructor; qsimpl; auto.
    + intros g Hg. destruct (O g Hg) as [r E]. eqb_cases; simpl; eauto.
    + intros g Hg. rewrite (Ln g Hg). eqb_cases; reflexivity.
  - unfold EnableCancel in H. destruct (use_cancel m); [discriminate|].
    inversion H; subst; constructor; simpl; auto.
  - unfold PrepareFree in H. inversion H; subst; constructor; simpl; auto.
    intros E; discriminate.
Qed.

Lemma reachable_inv2 (m : queue) : reachable m -> inv2 m.
Proof.
  induction 1 as [|m o m' _ IH Hs]; [apply inv2_init|].
  exact (inv2_step m m' o IH Hs).
Qed.

(** C3: whenever a step hands a packet to the output, the flow chosen has a
    priority value no greater than that of every flow queued at that moment
    (those queued before the step, the one that just submitted, and those
    still queued after it); the chosen flow becomes the sending flow. *)
Theorem C3_send_picks_min_priority (m m' : queue) (o : op) (g : flow_id) (d l : Z) :
  step m o = Some m' -> output m' = OSend g d l :: output m ->
  sending_flow m' = Some g /\
  (forall f, In f (queued_heap m) \/ In f (queued_heap m') \/
             (exists d' l', o = InputSend f d' l') ->
     (fl_priority (flows m' g) <= fl_priority (flows m' f))%Z).
Proof.
  intros Hs Ho. destruct (step_output m m' o Hs) as [E|[[E _]|E]].
  - rewrite E in Ho. exfalso; exact (cons_neq _ _ Ho).
  - rewrite E in Ho. discriminate Ho.
  - destruct E as (m3 & Hs3 & Eo & Ep & Hin & _ & Hnew & _).
    destruct (schedule_min m3 m' Hs3) as (q & Hsq & Eo' & Hq & Eh & _ & Ep' & Hmin).
    rewrite Eo', Eo in Ho. injection Ho as <- _ _.
    split; [exact Hsq|]. intros f Hf. rewrite !Ep'. apply Hmin.
    destruct Hf as [Hf|[Hf|(d' & l' & Ef)]].
    + apply Hin, Hf.
    + rewrite Eh in Hf. exact (Remove_in _ _ _ Hf).
    + exact (Hnew f d' l' Ef).
Qed.

(** C9: freeing a flow that is queued but not sending removes its node from
    the heap and changes nothing else: the sending flow and length, the
    schedule job, the output and every other flow are as before. *)
Theorem C9_free_queued_frame (m m' : queue) (f : flow_id) :
  fl_is_queued (flows m f) = true -> is_sending m f = false ->
  Flow_Free m f = Some m' ->
  queued_heap m' = BHeap_Remove (queued_heap m) f /\
  sending_flow m' = sending_flow m /\ sending_len m' = sending_len m /\
  schedule_job m' = schedule_job m /\ output m' = output m /\
  (forall g, g <> f -> flows m' g = flows m g).
Proof.
  intros Hq Hs H.
  destruct (Flow_Free_spec m m' f H) as (_ & Eh & Es & Ef & El & Ej & _ & _ & Eo).
  rewrite Hq in Eh; rewrite Hs in Es.
  repeat split; auto.
  intros g Hg. rewrite Ef; unfold upd. destruct (Nat.eqb_spec g f); congruence.
Qed.

(** C10: while the schedule job is set, no event other than the job itself
    hands a packet to the output; the job stays set; a submitted packet is
    only appended to the heap. Over a run of such events the output is
    unchanged. *)
Theorem C10_job_set_defers_send (m m' : queue) (os : list op) :
  schedule_job m = true -> ~ In RunScheduleJob os -> run m os = Some m' ->
  output m' = output m /\ schedule_job m' = true /\
  (forall f d l m1, step m (InputSend f d l) = Some m1 ->
     queued_heap m1 = BHeap_Insert (queued_heap m) f /\
     fl_is_queued (flows m1 f) = true /\ output m1 = output m).
Proof.
  assert (Hstep : forall m m1 o, schedule_job m = true -> o <> RunScheduleJob ->
            step m o = Some m1 -> output m1 = output m /\ schedule_job m1 = true).
  { clear. intros m m1 o Hj Ho H.
    destruct o as [f p|f d l| | |f|f|f| |]; simpl in H.
    - unfold Flow_Init in H. destruct (freeing m), (fl_alive (flows m f)); try discriminate.
      inversion H; subst; split; [reflexivity|exact Hj].
    - unfold input_handler_send in H.
      destruct (freeing _); [discriminate|].
      destruct (is_sending _ f); [discriminate|].
      destruct (fl_is_queued _); [discriminate|].
      destruct (fl_alive _); [|discriminate].
      cbn [negb] in H. qsimpl. rewrite Hj in H. simpl in H. rewrite ?andb_false_r in H.
      inversion H; subst; split; reflexivity.
    - unfold output_handler_done in H.
      destruct (freeing m); [discriminate|].
      destruct (sending_flow m) as [f|]; [|discriminate].
      destruct (fl_is_queued (flows m f)); [discriminate|]. rewrite Hj in H; discriminate.
    - congruence.
    - destruct (Flow_Free_spec m m1 f H) as (_ & _ & _ & _ & _ & Ej & _ & _ & Eo).
      split; congruence.
    - unfold Flow_Release in H. rewrite Hj in H.
      destruct (use_cancel m), (is_sending m f), (freeing m); discriminate.
    - unfold Flow_SetBusyHandler in H.
      destruct (is_sending m f), (freeing m), (fl_alive (flows m f)); try discriminate.
      inversion H; subst; split; [reflexivity|exact Hj].
    - unfold EnableCancel in H. destruct (use_cancel m); [discriminate|].
      inversion H; subst; split; [reflexivity|exact Hj].
    - unfold PrepareFree in H. inversion H; subst; split; [reflexivity|exact Hj]. }
  intros Hj Hn Hr. split; [|split].
  - revert m Hj Hr; induction os as [|o os IH]; intros m Hj Hr; simpl in Hr.
    + inversion Hr; subst; reflexivity.
    + destruct (step m o) as [m1|] eqn:Hs; [|discriminate].
      assert (o <> RunScheduleJob) by (intros ->; apply Hn; left; reflexivity).
      destruct (Hstep m m1 o Hj H Hs) as [Eo Ej].
      rewrite <- Eo. apply IH; [intros Hi; apply Hn; right; exact Hi|exact Ej|exact Hr].
  - revert m Hj Hr; induction os as [|o os IH]; intros m Hj Hr; simpl in Hr.
    + inversion Hr; subst; exact Hj.
    + destruct (step m o) as [m1|] eqn:Hs; [|discriminate].
      assert (o <> RunScheduleJob) by (intros ->; apply Hn; left; reflexivity).
      destruct (Hstep m m1 o Hj H Hs) as [_ Ej].
      apply (IH (fun Hi => Hn (or_intror Hi)) m1 Ej Hr).
  - intros f d l m1 H. simpl in H. unfold input_handler_send in H.
    destruct (freeing _); [discriminate|].
    destruct (is_sending _ f); [discriminate|].
    destruct (fl_is_queued _); [discriminate|].
    destruct (fl_alive _); [|discriminate].
    cbn [negb] in H. qsimpl. rewrite Hj in H. simpl in H. rewrite ?andb_false_r in H.
    inversion H; subst; simpl. rewrite Nat.eqb_refl. repeat split; reflexivity.
Qed.

(** C2: with cancel enabled, releasing the sending flow calls the output's
    cancel (and nothing else on it), leaves no flow sending and sets the
    schedule job; the heap is untouched, so the next queued packet goes out
    when the schedule job runs, as that job's send. *)
Theorem C2_release_cancels_and_defers (m : queue) (f : flow_id) :
  use_cancel m = true -> sending_flow m = Some f -> freeing m = false ->
  schedule_job m = false -> fl_alive (flows m f) = true ->
  exists m', step m (FlowRelease f) = Some m' /\
    output m' = OCancel :: output m /\ sending_flow m' = None /\
    schedule_job m' = true /\ queued_heap m' = queued_heap m /\
    (forall m'', step m' RunScheduleJob = Some m'' -> queued_heap m <> [] ->
       exists g d l, output m'' = OSend g d l :: output m' /\
                     sending_flow m'' = Some g).
Proof.
  intros Hc Hs Hfr Hj Ha. simpl. unfold Flow_Release, is_sending.
  rewrite Hc, Hs, Nat.eqb_refl, Hfr, Hj, Ha. simpl.
  eexists; split; [reflexivity|]. qsimpl.
  repeat split; auto.
  intros m'' H Hne. unfold schedule_job_handler in H. simpl in H. rewrite Hfr in H.
  simpl in H. destruct (BHeap_GetFirst _) eqn:Eg.
  - destruct (schedule_min _ _ H) as (q & Hsq & Eo & _).
    exists q; eexists; eexists; split; [exact Eo|exact Hsq].
  - unfold BHeap_GetFirst in Eg; simpl in Eg.
    destruct (queued_heap m); [congruence|discriminate].
Qed.

Lemma C3_send_picks_min_priority_witness :
  sending_flow ex_q2 = Some 2%nat /\
  (forall f, In f (queued_heap ex_q1) \/ In f (queued_heap ex_q2) \/
             (exists d' l', RunScheduleJob = InputSend f d' l') ->
     (fl_priority (flows ex_q2 2%nat) <= fl_priority (flows ex_q2 f))%Z).
Proof.
  apply (C3_send_picks_min_priority ex_q1 ex_q2 RunScheduleJob 2%nat 200 20);
    vm_compute; reflexivity.
Defined.

Lemma C9_free_queued_frame_witness :
  let m' := get (Flow_Free ex_q0 3%nat) ex_q0 in
  queued_heap m' = BHeap_Remove (queued_heap ex_q0) 3%nat /\
  sending_flow m' = sending_flow ex_q0 /\ sending_len m' = sending_len ex_q0 /\
  schedule_job m' = schedule_job ex_q0 /\ output m' = output ex_q0 /\
  (forall g, g <> 3%nat -> flows m' g = flows ex_q0 g).
Proof.
  apply (C9_free_queued_frame ex_q0 (get (Flow_Free ex_q0 3%nat) ex_q0) 3%nat);
    vm_compute; reflexivity.
Defined.

Lemma C10_job_set_defers_send_witness :
  let os := [InputSend 1%nat 101 11; FlowInit 4%nat 1; InputSend 4%nat 400 40] in
  let m' := get (run ex_q1 os) ex_q1 in
  output m' = output ex_q1 /\ schedule_job m' = true /\
  (forall f d l m1, step ex_q1 (InputSend f d l) = Some m1 ->
     queued_heap m1 = BHeap_Insert (queued_heap ex_q1) f /\
     fl_is_queued (flows m1 f) = true /\ output m1 = output ex_q1).
Proof.
  apply (C10_job_set_defers_send ex_q1
           (get (run ex_q1 [InputSend 1%nat 101 11; FlowInit 4%nat 1; InputSend 4%nat 400 40]) ex_q1)
           [InputSend 1%nat 101 11; FlowInit 4%nat 1; InputSend 4%nat 400 40]).
  - vm_compute; reflexivity.
  - simpl; intros [E|[E|[E|[]]]]; discriminate E.
  - vm_compute; reflexivity.
Defined.

Lemma C2_release_cancels_and_defers_witness :
  exists m', step ex_q0 (FlowRelease 1%nat) = Some m' /\
    output m' = OCancel :: output ex_q0 /\ sending_flow m' = None /\
    schedule_job m' = true /\ queued_heap m' = queued_heap ex_q0 /\
    (forall m'', step m' RunScheduleJob = Some m'' -> queued_heap ex_q0 <> [] ->
       exists g d l, output m'' = OSend g d l :: output m' /\
                     sending_flow m'' = Some g).
Proof.
  apply (C2_release_cancels_and_defers ex_q0 1%nat); vm_compute; reflexivity.
Defined.

(** ** Further properties of the queue *)

Lemma ex_q0_reachable : reachable ex_q0.
Proof.
  apply (run_reachable PacketPassPriorityQueue_Init ex_q0 ex_ops); [constructor|].
  vm_compute; reflexivity.
Qed.

Lemma ex_q1_reachable : reachable ex_q1.
Proof. apply (reach_step ex_q0 OutputDone); [exact ex_q0_reachable|vm_compute; reflexivity]. Qed.

Lemma ex_qf_reachable : reachable ex_qf.
Proof. apply (reach_step ex_q0 OpPrepareFree); [exact ex_q0_reachable|vm_compute; reflexivity]. Qed.

(** In every reachable state (any sequence of operations, [PrepareFree] and
    the frees after it included), while the schedule job is pending no flow is
    sending; so the job's handler never trips its assertions when the queue is
    not freeing. [freeing m = false] is the handler's own
    [ASSERT(!m->freeing)]: after [PrepareFree] running the job fails
    ([pq_job_after_prepare_free]). *)
Theorem pq_job_pending_idle (m : queue) :
  reachable m -> schedule_job m = true ->
  sending_flow m = None /\
  (freeing m = false -> exists m', step m RunScheduleJob = Some m').
Proof.
  intros R Hj. pose proof (reachable_inv m R) as I.
  pose proof (inv2_job m (reachable_inv2 m R) Hj) as Hs.
  split; [exact Hs|]. intros Hf.
  simpl. rewrite Hj. unfold schedule_job_handler. cbn [negb].
  assert (I' : inv (set_schedule_job m false)) by (apply (inv_ext m); auto).
  assert (Ef : freeing (set_schedule_job m false) = false) by exact Hf.
  assert (Es : sending_flow (set_schedule_job m false) = None) by exact Hs.
  rewrite Ef, Es. cbn [has_flow negb].
  destruct (BHeap_GetFirst _) eqn:Eg; [|eauto].
  apply schedule_ok; [exact I'|exact Ef|exact Es|].
  unfold BHeap_GetFirst in Eg. destruct (queued_heap (set_schedule_job m false)); [discriminate|discriminate].
Qed.

Lemma pq_job_pending_idle_witness :
  sending_flow ex_q1 = None /\
  (freeing ex_q1 = false -> exists m', step ex_q1 RunScheduleJob = Some m').
Proof. apply (pq_job_pending_idle ex_q1); [exact ex_q1_reachable|vm_compute; reflexivity]. Defined.

(** The queue is work-conserving: in every reachable state that is not
    freeing (the states no [PrepareFree] has been applied to), when no flow is
    sending and no schedule job is pending, no packet is waiting in the heap.
    After [PrepareFree] this no longer holds: freeing the sending flow clears
    it without setting the job ([pq_idle_after_prepare_free]). *)
Theorem pq_work_conserving (m : queue) :
  reachable m -> freeing m = false -> sending_flow m = None ->
  schedule_job m = false -> queued_heap m = [].
Proof. intros R. apply (inv2_idle m (reachable_inv2 m R)). Qed.

Lemma pq_work_conserving_witness :
  freeing ex_q3 = false /\ sending_flow ex_q3 = None /\
  schedule_job ex_q3 = false /\ queued_heap ex_q3 = [].
Proof.
  assert (R : reachable ex_q3).
  { apply (run_reachable ex_q0 ex_q3
      [OutputDone; RunScheduleJob; OutputDone; RunScheduleJob;
       OutputDone; RunScheduleJob]); [exact ex_q0_reachable|vm_compute; reflexivity]. }
  split; [vm_compute; reflexivity|split; [vm_compute; reflexivity|split; [vm_compute; reflexivity|]]].
  apply (pq_work_conserving ex_q3); [exact R|vm_compute; reflexivity..].
Defined.

(** The packet in flight is the sending flow's packet: the last call on the
    output is the send of that flow's queued data and length, [sending_len] is
    that length, and the flow's input is still busy. *)
Theorem pq_in_flight_packet (m : queue) (f : flow_id) :
  reachable m -> sending_flow m = Some f ->
  (exists rest, output m =
     OSend f (fl_data (flows m f)) (fl_data_len (flows m f)) :: rest) /\
  sending_len m = fl_data_len (flows m f) /\
  fl_input_busy (flows m f) = true.
Proof.
  intros R Hs. pose proof (reachable_inv2 m R) as I2.
  split; [exact (inv2_out m I2 f Hs)|split; [exact (inv2_len m I2 f Hs)|]].
  exact (proj2 (proj2 (inv_sending m (reachable_inv m R) f Hs))).
Qed.

Lemma pq_in_flight_packet_witness :
  (exists rest, output ex_q2 =
     OSend 2%nat (fl_data (flows ex_q2 2%nat)) (fl_data_len (flows ex_q2 2%nat)) :: rest) /\
  sending_len ex_q2 = fl_data_len (flows ex_q2 2%nat) /\
  fl_input_busy (flows ex_q2 2%nat) = true.
Proof.
  apply (pq_in_flight_packet ex_q2 2%nat).
  - apply (reach_step ex_q1 RunScheduleJob); [exact ex_q1_reachable|vm_compute; reflexivity].
  - vm_compute; reflexivity.
Defined.

(** The caller protocol of a queue user that removes a flow while the queue
    runs (test `if busy then release; free`): on a live flow of a cancel-enabled
    queue, [IsBusy] answers whether the flow is the one sending; if it is,
    [Release] succeeds, cancels the packet on the output, and [Free] then
    succeeds; if not, [Free] succeeds directly. *)
Theorem pq_busy_release_free (m : queue) (f : flow_id) :
  reachable m -> freeing m = false -> use_cancel m = true ->
  fl_alive (flows m f) = true ->
  exists b, Flow_IsBusy m f = Some b /\ b = is_sending m f /\
  (if b
   then exists m1 m2, Flow_Release m f = Some m1 /\
        output m1 = OCancel :: output m /\ Flow_Free m1 f = Some m2
   else exists m2, Flow_Free m f = Some m2).
Proof.
  intros R Hf Hc Ha.
  unfold Flow_IsBusy. rewrite Hf, Ha. cbn [negb].
  exists (is_sending m f). split; [reflexivity|split; [reflexivity|]].
  destruct (is_sending m f) eqn:Eis.
  - assert (Hj : schedule_job m = false).
    { destruct (schedule_job m) eqn:Ej; [|reflexivity].
      pose proof (inv2_job m (reachable_inv2 m R) Ej) as Hs.
      unfold is_sending in Eis. rewrite Hs in Eis. discriminate. }
    cbv beta iota.
    exists (set_schedule_job (set_sending (emit m OCancel) None) true).
    cut (exists m2, Flow_Free
           (set_schedule_job (set_sending (emit m OCancel) None) true) f = Some m2).
    { intros [m2 E2]. exists m2.
      split; [unfold Flow_Release; rewrite Hc, Eis, Hf, Hj, Ha; reflexivity|].
      split; [reflexivity|exact E2]. }
    unfold Flow_Free. qsimpl. rewrite Hf, Ha. simpl.
    destruct (fl_is_queued _); eauto.
  - unfold Flow_Free. rewrite Eis, Ha, orb_true_r. cbn [negb].
    destruct (fl_is_queued _); eauto.
Qed.

Lemma pq_busy_release_free_witness :
  exists b, Flow_IsBusy ex_q0 1%nat = Some b /\ b = is_sending ex_q0 1%nat /\
  (if b
   then exists m1 m2, Flow_Release ex_q0 1%nat = Some m1 /\
        output m1 = OCancel :: output ex_q0 /\ Flow_Free m1 1%nat = Some m2
   else exists m2, Flow_Free ex_q0 1%nat = Some m2).
Proof.
  apply (pq_busy_release_free ex_q0 1%nat);
    [exact ex_q0_reachable|vm_compute; reflexivity..].
Defined.

(** Freeing a flow removes every trace of it from the scheduler: afterwards it
    is neither in the heap nor the sending flow, so the queue never hands a
    packet of a freed flow to the output. *)
Theorem pq_free_forgets_flow (m m' : queue) (f : flow_id) :
  reachable m -> Flow_Free m f = Some m' ->
  ~ In f (queued_heap m') /\ sending_flow m' <> Some f /\
  fl_alive (flows m' f) = false.
Proof.
  intros R E. pose proof (reachable_inv m R) as I.
  destruct (Flow_Free_spec m m' f E)
    as (Ha & Eh & Es & Efl & _ & _ & _ & _ & _).
  split; [|split].
  - rewrite Eh. destruct (fl_is_queued (flows m f)) eqn:Eq.
    + apply Remove_notin, (inv_nodup m I).
    + intros Hin. destruct (inv_heap m I f Hin) as [_ Hq]. congruence.
  - rewrite Es. unfold is_sending.
    destruct (sending_flow m) as [g|]; [|discriminate].
    destruct (Nat.eqb_spec g f) as [->|Hne]; [discriminate|congruence].
  - rewrite Efl. unfold upd. rewrite Nat.eqb_refl. reflexivity.
Qed.

Lemma pq_free_forgets_flow_witness :
  exists m', Flow_Free ex_q0 2%nat = Some m' /\
  ~ In 2%nat (queued_heap m') /\ sending_flow m' <> Some 2%nat /\
  fl_alive (flows m' 2%nat) = false.
Proof.
  exists (get (Flow_Free ex_q0 2%nat) ex_q0). split; [vm_compute; reflexivity|].
  apply (pq_free_forgets_flow ex_q0); [exact ex_q0_reachable|vm_compute; reflexivity].
Defined.

(** In every reachable state that is not freeing, the done call for the
    sending flow's packet never trips an assertion: it clears the sending
    flow, sets the schedule job, finishes the flow's input packet and unsets
    its one-shot busy handler, and leaves the heap and the output untouched.
    [freeing m = false] is the handler's own [ASSERT(!m->freeing)]: after
    [PrepareFree] the done call fails ([pq_done_after_prepare_free]). *)
Theorem pq_output_done_ok (m : queue) (f : flow_id) :
  reachable m -> freeing m = false -> sending_flow m = Some f ->
  exists m', step m OutputDone = Some m' /\
  sending_flow m' = None /\ schedule_job m' = true /\
  fl_input_busy (flows m' f) = false /\ fl_handler_busy (flows m' f) = false /\
  queued_heap m' = queued_heap m /\ output m' = output m.
Proof.
  intros R Hf Hs. pose proof (reachable_inv m R) as I.
  destruct (inv_sending m I f Hs) as (_ & Hq & _).
  assert (Hj : schedule_job m = false).
  { destruct (schedule_job m) eqn:Ej; [|reflexivity].
    rewrite (inv2_job m (reachable_inv2 m R) Ej) in Hs. discriminate. }
  simpl. unfold output_handler_done. rewrite Hf, Hs, Hq, Hj. cbn [negb].
  qsimpl. rewrite Nat.eqb_refl. simpl.
  destruct (fl_handler_busy (flows m f)) eqn:Eb.
  - eexists; split; [reflexivity|]. simpl. rewrite Nat.eqb_refl.
    repeat split; reflexivity.
  - eexists; split; [reflexivity|]. simpl. rewrite Nat.eqb_refl.
    repeat split; first [reflexivity | exact Eb].
Qed.

Lemma pq_output_done_ok_witness :
  exists m', step ex_q0 OutputDone = Some m' /\
  sending_flow m' = None /\ schedule_job m' = true /\
  fl_input_busy (flows m' 1%nat) = false /\ fl_handler_busy (flows m' 1%nat) = false /\
  queued_heap m' = queued_heap ex_q0 /\ output m' = output ex_q0.
Proof.
  apply (pq_output_done_ok ex_q0 1%nat);
    [exact ex_q0_reachable|vm_compute; reflexivity..].
Defined.

(** Once no flow is live, the assertions of [PacketPassPriorityQueue_Free]
    hold: the heap is empty and no flow is sending. *)
Theorem pq_queue_free_ok (m : queue) :
  reachable m -> (forall f, fl_alive (flows m f) = false) ->
  PacketPassPriorityQueue_Free m = Some tt.
Proof.
  intros R Hd. pose proof (reachable_inv m R) as I.
  unfold PacketPassPriorityQueue_Free.
  destruct (queued_heap m) as [|g t] eqn:Eh.
  - destruct (sending_flow m) as [g|] eqn:Es; [|reflexivity].
    destruct (inv_sending m I g Es) as [Ha _]. rewrite Hd in Ha. discriminate.
  - destruct (inv_heap m I g) as [Ha _]; [rewrite Eh; left; reflexivity|].
    rewrite Hd in Ha. discriminate.
Qed.

(** At the state reached from [ex_q0] (flow 1 sending, flows 2 and 3 queued)
    by [PrepareFree] and freeing the three flows. *)
Lemma pq_queue_free_ok_witness :
  PacketPassPriorityQueue_Free ex_qt = Some tt.
Proof.
  apply pq_queue_free_ok.
  - apply (run_reachable ex_qf ex_qt (map FlowFree [1%nat; 2%nat; 3%nat]));
      [exact ex_qf_reachable|vm_compute; reflexivity].
  - intros f. destruct f as [|[|[|[|f]]]]; vm_compute; reflexivity.
Defined.

(** The [freeing m = false] hypotheses above are needed. *)
Example pq_job_after_prepare_free :
  schedule_job ex_q1f = true /\ sending_flow ex_q1f = None /\
  step ex_q1f RunScheduleJob = None.
Proof. vm_compute; auto. Qed.

Example pq_idle_after_prepare_free :
  freeing ex_qf1 = true /\ sending_flow ex_qf1 = None /\
  schedule_job ex_qf1 = false /\ queued_heap ex_qf1 = [2%nat; 3%nat].
Proof. vm_compute; auto. Qed.

Example pq_done_after_prepare_free :
  sending_flow ex_qf = Some 1%nat /\ step ex_qf OutputDone = None.
Proof. vm_compute; auto. Qed.

(** Tear-down: after [PrepareFree], freeing every live flow, each exactly
    once and in any order, succeeds whatever flow is sending or queued, and
    the queue's own [Free] then succeeds. *)
Theorem pq_teardown (m : queue) (fs : list flow_id) :
  reachable m -> freeing m = true -> NoDup fs ->
  (forall f, fl_alive (flows m f) = true <-> In f fs) ->
  exists m', run m (map FlowFree fs) = Some m' /\
             PacketPassPriorityQueue_Free m' = Some tt.
Proof.
  revert m. induction fs as [|f t IH]; intros m R Hfr Hn Hl.
  - exists m. split; [reflexivity|]. apply pq_queue_free_ok; [exact R|].
    intros g. destruct (fl_alive (flows m g)) eqn:Ea; [|reflexivity].
    apply Hl in Ea. destruct Ea.
  - inversion Hn as [|? ? Hnotin Hn']; subst.
    assert (Ha : fl_alive (flows m f) = true) by (apply Hl; left; reflexivity).
    assert (E1 : exists m1, Flow_Free m f = Some m1).
    { unfold Flow_Free. rewrite Hfr, Ha. simpl. destruct (fl_is_queued _); eauto. }
    destruct E1 as [m1 E1].
    destruct (Flow_Free_spec m m1 f E1)
      as (_ & _ & _ & Efl & _ & _ & Efr & _ & _).
    assert (R1 : reachable m1) by (apply (reach_step m (FlowFree f)); assumption).
    destruct (IH m1 R1 ltac:(congruence) Hn') as [m' [Er Ef]].
    + intros g. rewrite Efl. unfold upd.
      destruct (Nat.eqb_spec g f) as [->|Hne].
      * simpl. split; [discriminate|intros H; contradiction].
      * rewrite Hl. simpl. split; [intros [E|E]; [congruence|exact E]|tauto].
    + exists m'. split; [|exact Ef]. simpl. rewrite E1. exact Er.
Qed.

Lemma pq_teardown_witness :
  exists m', run ex_qf (map FlowFree [1%nat; 2%nat; 3%nat]) = Some m' /\
             PacketPassPriorityQueue_Free m' = Some tt.
Proof.
  apply (pq_teardown ex_qf); [exact ex_qf_reachable|vm_compute; reflexivity| |].
  - repeat constructor; simpl; intuition discriminate.
  - intros f. destruct f as [|[|[|[|f]]]]; vm_compute;
      split; intros H; try first [reflexivity | discriminate H | tauto].
    + destruct H as [E|[E|[E|[]]]]; discriminate E.
    + destruct H as [E|[E|[E|[]]]]; discriminate E.
Defined.

Lemma schedule_output (m m' : queue) :
  schedule m = Some m' ->
  exists q d l, output m' = OSend q d l :: output m.
Proof.
  intros H. destruct (schedule_spec m m' H) as (q & _ & _ & _ & _ & ->).
  qsimpl. eauto.
Qed.

(** The queue never cancels on its own: a step other than a flow's
    [Release] leaves the output calls as they were or adds one send; in
    particular a higher-priority packet never preempts the one in flight. *)
Theorem pq_cancel_only_on_release (m m' : queue) (o : op) :
  step m o = Some m' -> (forall f, o <> FlowRelease f) ->
  output m' = output m \/ exists q d l, output m' = OSend q d l :: output m.
Proof.
  intros H Hr. destruct o as [f p|f d l| | |f|f|f| |]; simpl in H.
  - unfold Flow_Init in H. destruct (freeing m), (fl_alive (flows m f)); try discriminate.
    inversion H; subst; left; reflexivity.
  - unfold input_handler_send in H.
    destruct (freeing _); [discriminate|].
    destruct (is_sending _ f); [discriminate|].
    destruct (fl_is_queued _); [discriminate|].
    destruct (fl_alive _); [|discriminate].
    cbn [negb] in H.
    match type of H with
    | (if ?c then schedule ?m3 else Some ?m4) = Some _ =>
        destruct c; [right; apply schedule_output in H; exact H|]
    end.
    inversion H; subst. left; reflexivity.
  - unfold output_handler_done in H.
    destruct (freeing m); [discriminate|]. destruct (sending_flow m) as [g|]; [|discriminate].
    destruct (fl_is_queued _); [discriminate|]. destruct (schedule_job m); [discriminate|].
    cbn [negb] in H. qsimpl.
    destruct (fl_handler_busy _); inversion H; subst; left; reflexivity.
  - destruct (schedule_job m); [|discriminate]. cbn in H.
    unfold schedule_job_handler in H. qsimpl.
    destruct (freeing m); [discriminate|]. destruct (sending_flow m); [discriminate|].
    cbn [negb has_flow] in H.
    destruct (BHeap_GetFirst _).
    + right. apply schedule_output in H. exact H.
    + inversion H; subst. left; reflexivity.
  - left. destruct (Flow_Free_spec m m' f H) as (_ & _ & _ & _ & _ & _ & _ & _ & E).
    exact E.
  - destruct (Hr f eq_refl).
  - unfold Flow_SetBusyHandler in H.
    destruct (is_sending m f), (freeing m), (fl_alive (flows m f)); try discriminate.
    inversion H; subst; left; reflexivity.
  - unfold EnableCancel in H. destruct (use_cancel m); [discriminate|].
    inversion H; subst; left; reflexivity.
  - unfold PrepareFree in H. inversion H; subst; left; reflexivity.
Qed.

Lemma pq_cancel_only_on_release_witness :
  output ex_q1 = output ex_q0 \/
  exists q d l, output ex_q1 = OSend q d l :: output ex_q0.
Proof.
  apply (pq_cancel_only_on_release ex_q0 ex_q1 OutputDone);
    [vm_compute; reflexivity|intros f; discriminate].
Defined.

(** On an idle queue (not freeing, no flow sending, schedule job unset), a
    live flow whose input is free that is passed a packet has it handed to the
    output at once: the flow becomes the sending flow, [sending_len] is the
    packet's length, and nothing stays queued. *)
Theorem pq_idle_send_dispatches (m : queue) (f : flow_id) (d l : Z) :
  reachable m -> freeing m = false -> sending_flow m = None ->
  schedule_job m = false -> fl_alive (flows m f) = true ->
  fl_input_busy (flows m f) = false ->
  exists m', step m (InputSend f d l) = Some m' /\
    sending_flow m' = Some f /\ sending_len m' = l /\
    output m' = OSend f d l :: output m /\ queued_heap m' = [].
Proof.
  intros R Hf Hs Hj Ha Hb. pose proof (reachable_inv m R) as I.
  assert (Eh : queued_heap m = []) by exact (inv2_idle m (reachable_inv2 m R) Hf Hs Hj).
  assert (Hq : fl_is_queued (flows m f) = false).
  { destruct (fl_is_queued (flows m f)) eqn:Eq; [|reflexivity].
    rewrite (inv_busy m I f Ha Eq) in Hb. discriminate. }
  simpl. unfold input_handler_send. qsimpl.
  rewrite Nat.eqb_refl. simpl. rewrite Hf, Hs, Hq, Ha, Hj. simpl.
  unfold schedule, BHeap_GetFirst. simpl. rewrite Eh. simpl.
  rewrite ?Nat.eqb_refl. simpl.
  eexists; split; [reflexivity|]. qsimpl. repeat split; reflexivity.
Qed.

Lemma pq_idle_send_dispatches_witness :
  exists m', step ex_qi (InputSend 4%nat 500 50) = Some m' /\
    sending_flow m' = Some 4%nat /\ sending_len m' = 50 /\
    output m' = OSend 4%nat 500 50 :: output ex_qi /\ queued_heap m' = [].
Proof.
  apply (pq_idle_send_dispatches ex_qi 4%nat 500 50);
    [|vm_compute; reflexivity..].
  apply (reach_step PacketPassPriorityQueue_Init (FlowInit 4%nat 1));
    [constructor|vm_compute; reflexivity].
Defined.

(** A packet passed to a flow while another flow's packet is in flight is
    queued, not sent: the in-flight packet keeps going whatever the
    priorities, the output sees no new call, and the flow waits in the heap
    with the packet stored. *)
Theorem pq_busy_send_queues (m : queue) (f g : flow_id) (d l : Z) :
  reachable m -> freeing m = false -> sending_flow m = Some g -> g <> f ->
  fl_alive (flows m f) = true -> fl_input_busy (flows m f) = false ->
  exists m', step m (InputSend f d l) = Some m' /\
    sending_flow m' = Some g /\ output m' = output m /\
    In f (queued_heap m') /\ fl_is_queued (flows m' f) = true /\
    fl_data (flows m' f) = d /\ fl_data_len (flows m' f) = l.
Proof.
  intros R Hf Hs Hne Ha Hb. pose proof (reachable_inv m R) as I.
  assert (Hq : fl_is_queued (flows m f) = false).
  { destruct (fl_is_queued (flows m f)) eqn:Eq; [|reflexivity].
    rewrite (inv_busy m I f Ha Eq) in Hb. discriminate. }
  assert (Eg : Nat.eqb g f = false) by (apply Nat.eqb_neq; exact Hne).
  simpl. unfold input_handler_send. qsimpl.
  rewrite Nat.eqb_refl. simpl. rewrite Hf, Hs, Eg, Hq, Ha. simpl.
  eexists; split; [reflexivity|]. simpl. rewrite Nat.eqb_refl. simpl.
  repeat split; try reflexivity.
  apply in_or_app. right. left. reflexivity.
Qed.

Lemma ex_q2_reachable : reachable ex_q2.
Proof. apply (reach_step ex_q1 RunScheduleJob); [exact ex_q1_reachable|vm_compute; reflexivity]. Qed.

Lemma pq_busy_send_queues_witness :
  exists m', step ex_q2 (InputSend 1%nat 400 40) = Some m' /\
    sending_flow m' = Some 2%nat /\ output m' = output ex_q2 /\
    In 1%nat (queued_heap m') /\ fl_is_queued (flows m' 1%nat) = true /\
    fl_data (flows m' 1%nat) = 400 /\ fl_data_len (flows m' 1%nat) = 40.
Proof.
  apply (pq_busy_send_queues ex_q2 1%nat 2%nat 400 40);
    [exact ex_q2_reachable|vm_compute; reflexivity|vm_compute; reflexivity|
     discriminate|vm_compute; reflexivity|vm_compute; reflexivity].
Defined.

End PQFacts.
